(** * Snake game engine of [src/components/SnakeGame.tsx]

    A shallow embedding of the game logic of the [SnakeGame] React
    component: the state cells created with [useState]/[useRef], the
    food generator, the [setSnake] updater run by the interval timer,
    the keyboard and touch handlers, and the passive effects that React
    runs after a render when one of their dependencies changed.

    Numbers are JavaScript doubles that only ever hold small integers
    here, so coordinates, score and speed are modelled in [Z].  The
    calls to [Math.random] are the one source of nondeterminism: a run
    is given the list of cells that the successive evaluations of
    [{x: Math.floor(Math.random() * BOARD_SIZE), y: ...}] produce, and
    a computation that needs more cells than the list holds has no
    result (the [do ... while] loop has not finished).

    An event (a timer tick, a key, a swipe, a click) is handled to the
    end, render and effects included, before the next one: the handlers
    and the interval callback always see the state of the last
    render. *)

From Stdlib Require Import ZArith List Bool String Lia Permutation.
Import ListNotations.
Local Open Scope Z_scope.

(** ** Types and constants (lines 3-22) *)

Record Position : Type := mkPosition { x : Z; y : Z }.

Inductive Direction : Type := UP | DOWN | LEFT | RIGHT.

Inductive GameStatus : Type := IDLE | PLAYING | GAME_OVER.

Definition BOARD_SIZE : Z := 20.
Definition INITIAL_SPEED : Z := 150.
Definition MIN_SPEED : Z := 50.
Definition SPEED_INCREMENT : Z := 5.
Definition INITIAL_SNAKE : list Position :=
  [ mkPosition 10 10; mkPosition 10 11; mkPosition 10 12 ].

Definition Direction_eqb (a b : Direction) : bool :=
  match a, b with
  | UP, UP | DOWN, DOWN | LEFT, LEFT | RIGHT, RIGHT => true
  | _, _ => false
  end.

Definition GameStatus_eqb (a b : GameStatus) : bool :=
  match a, b with
  | IDLE, IDLE | PLAYING, PLAYING | GAME_OVER, GAME_OVER => true
  | _, _ => false
  end.

(** [a.x === b.x && a.y === b.y], the cell comparison used at lines 39,
    152 and 161. *)
Definition Position_eqb (a b : Position) : bool :=
  (x a =? x b) && (y a =? y b).

(** ** The component state (lines 25-35)

    One field per [useState] cell and per [useRef] cell.  The last
    field records an aliasing fact that the effect at line 184 depends
    on: whether the array held by the [snake] cell is the module
    constant [INITIAL_SNAKE] itself ([setSnake(INITIAL_SNAKE)] then
    leaves the cell unchanged and no effect fires). *)
Record Game : Type := mkGame {
  snake : list Position;
  food : Position;
  direction : Direction;
  gameStatus : GameStatus;
  score : Z;
  speed : Z;
  directionRef : Direction;
  gameStatusRef : GameStatus;
  snakeIsInitialArray : bool
}.

Definition setSnake (v : list Position) (initialArray : bool) (g : Game) : Game :=
  mkGame v (food g) (direction g) (gameStatus g) (score g) (speed g)
         (directionRef g) (gameStatusRef g) initialArray.

Definition setFood (v : Position) (g : Game) : Game :=
  mkGame (snake g) v (direction g) (gameStatus g) (score g) (speed g)
         (directionRef g) (gameStatusRef g) (snakeIsInitialArray g).

Definition setDirection (v : Direction) (g : Game) : Game :=
  mkGame (snake g) (food g) v (gameStatus g) (score g) (speed g)
         (directionRef g) (gameStatusRef g) (snakeIsInitialArray g).

Definition setGameStatus (v : GameStatus) (g : Game) : Game :=
  mkGame (snake g) (food g) (direction g) v (score g) (speed g)
         (directionRef g) (gameStatusRef g) (snakeIsInitialArray g).

Definition setScore (f : Z -> Z) (g : Game) : Game :=
  mkGame (snake g) (food g) (direction g) (gameStatus g) (f (score g)) (speed g)
         (directionRef g) (gameStatusRef g) (snakeIsInitialArray g).

Definition setSpeed (f : Z -> Z) (g : Game) : Game :=
  mkGame (snake g) (food g) (direction g) (gameStatus g) (score g) (f (speed g))
         (directionRef g) (gameStatusRef g) (snakeIsInitialArray g).

Definition setDirectionRef (v : Direction) (g : Game) : Game :=
  mkGame (snake g) (food g) (direction g) (gameStatus g) (score g) (speed g)
         v (gameStatusRef g) (snakeIsInitialArray g).

Definition setGameStatusRef (v : GameStatus) (g : Game) : Game :=
  mkGame (snake g) (food g) (direction g) (gameStatus g) (score g) (speed g)
         (directionRef g) v (snakeIsInitialArray g).

(** ** The random source

    [Rand A] is a computation that may evaluate [Math.random]: it reads
    cells off the front of the list of draws and hands the rest on. *)
Definition Rand (A : Type) : Type :=
  list Position -> option (A * list Position).

Definition ret {A : Type} (a : A) : Rand A :=
  fun draws => Some (a, draws).

Definition bind {A B : Type} (m : Rand A) (k : A -> Rand B) : Rand B :=
  fun draws =>
    match m draws with
    | Some (a, rest) => k a rest
    | None => None
    end.

Notation "v <- m ;; k" := (bind m (fun v => k))
  (at level 61, m at next level, right associativity).

(** ** generateFood (lines 38-51) *)

Definition isPositionOccupied (snakeBody : list Position) (pos : Position) : bool :=
  existsb (fun segment => (x segment =? x pos) && (y segment =? y pos)) snakeBody.

(** The [do ... while] loop: draw, and draw again while the cell is on
    the snake. *)
Fixpoint drawFood (snakeBody : list Position) (draws : list Position)
  : option (Position * list Position) :=
  match draws with
  | [] => None
  | newFood :: rest =>
      if isPositionOccupied snakeBody newFood
      then drawFood snakeBody rest
      else Some (newFood, rest)
  end.

Definition generateFood (snakeBody : list Position) (g : Game) : Rand Game :=
  newFood <- drawFood snakeBody ;;
  ret (setFood newFood g).

(** The effect of lines 184-186, with dependencies [generateFood, snake]:
    React runs it after the first render and after every render in which
    the [snake] cell holds another array than before. *)
Definition foodEffect (snakeChanged : bool) (g : Game) : Rand Game :=
  if snakeChanged then generateFood (snake g) g else ret g.

(** The effects of lines 189-195 copy the two state cells into the refs
    when the cells changed. *)
Definition refEffects (old g : Game) : Game :=
  let g1 := if Direction_eqb (direction old) (direction g) then g
            else setDirectionRef (direction g) g in
  if GameStatus_eqb (gameStatus old) (gameStatus g1) then g1
  else setGameStatusRef (gameStatus g1) g1.

(** ** initGame (lines 54-63), followed by the render it causes *)
Definition initGame (g : Game) : Rand Game :=
  let g1 := setSnake INITIAL_SNAKE true g in
  let g2 := setDirection UP g1 in
  let g3 := setDirectionRef UP g2 in
  let g4 := setScore (fun _ => 0) g3 in
  let g5 := setSpeed (fun _ => INITIAL_SPEED) g4 in
  g6 <- generateFood INITIAL_SNAKE g5 ;;
  let g7 := setGameStatus PLAYING g6 in
  let g8 := setGameStatusRef PLAYING g7 in
  g9 <- foodEffect (negb (snakeIsInitialArray g)) g8 ;;
  ret (refEffects g g9).

(** ** Direction handling (lines 73-108 and 198-227) *)

Definition handleSwipe (dir : Direction) (g : Game) : Game :=
  if negb (GameStatus_eqb (gameStatusRef g) PLAYING) then g
  else
    refEffects g
      match dir with
      | UP =>
          if negb (Direction_eqb (directionRef g) DOWN)
          then setDirectionRef UP (setDirection UP g) else g
      | DOWN =>
          if negb (Direction_eqb (directionRef g) UP)
          then setDirectionRef DOWN (setDirection DOWN g) else g
      | LEFT =>
          if negb (Direction_eqb (directionRef g) RIGHT)
          then setDirectionRef LEFT (setDirection LEFT g) else g
      | RIGHT =>
          if negb (Direction_eqb (directionRef g) LEFT)
          then setDirectionRef RIGHT (setDirection RIGHT g) else g
      end.

Local Open Scope string_scope.

(** The [switch (e.key)] of line 75: the direction a key asks for. *)
Definition keyDirection (key : string) : option Direction :=
  if (key =? "ArrowUp") || (key =? "w") || (key =? "W") then Some UP
  else if (key =? "ArrowDown") || (key =? "s") || (key =? "S") then Some DOWN
  else if (key =? "ArrowLeft") || (key =? "a") || (key =? "A") then Some LEFT
  else if (key =? "ArrowRight") || (key =? "d") || (key =? "D") then Some RIGHT
  else None.

Definition handleKeyDown (key : string) (g : Game) : Rand Game :=
  if GameStatus_eqb (gameStatusRef g) GAME_OVER
     && ((key =? " ") || (key =? "Spacebar"))
  then initGame g
  else if negb (GameStatus_eqb (gameStatusRef g) PLAYING) then ret g
  else
    match keyDirection key with
    | Some UP =>
        ret (refEffects g
               (if negb (Direction_eqb (directionRef g) DOWN)
                then setDirectionRef UP (setDirection UP g) else g))
    | Some DOWN =>
        ret (refEffects g
               (if negb (Direction_eqb (directionRef g) UP)
                then setDirectionRef DOWN (setDirection DOWN g) else g))
    | Some LEFT =>
        ret (refEffects g
               (if negb (Direction_eqb (directionRef g) RIGHT)
                then setDirectionRef LEFT (setDirection LEFT g) else g))
    | Some RIGHT =>
        ret (refEffects g
               (if negb (Direction_eqb (directionRef g) LEFT)
                then setDirectionRef RIGHT (setDirection RIGHT g) else g))
    | None => ret g
    end.

Local Close Scope string_scope.

(** ** The game loop (lines 116-181) *)

(** The [switch (directionRef.current)] of lines 124-137. *)
Definition moveHead (d : Direction) (head : Position) : Position :=
  match d with
  | UP => mkPosition (x head) (y head - 1)
  | DOWN => mkPosition (x head) (y head + 1)
  | LEFT => mkPosition (x head - 1) (y head)
  | RIGHT => mkPosition (x head + 1) (y head)
  end.

(** The test of lines 140-145. *)
Definition hitsWall (head : Position) : bool :=
  (x head <? 0) || (x head >=? BOARD_SIZE) ||
  (y head <? 0) || (y head >=? BOARD_SIZE).

(** [moveSnake]: the updater handed to [setSnake], together with the
    state changes it makes on the way.  The boolean tells whether the
    updater returned a new array ([true]) or [prevSnake] itself
    ([false], lines 148 and 155), in which case the [snake] cell does
    not change.

    On an empty [prevSnake] the copied head has no coordinates; every
    comparison on it is false, so the updater builds [[head]], pops it
    and returns a new empty array. *)
Definition moveSnake (g : Game) : Rand (Game * bool) :=
  let prevSnake := snake g in
  match prevSnake with
  | [] => ret (setSnake [] false g, true)
  | first :: _ =>
      let head := moveHead (directionRef g) first in
      if hitsWall head then
        ret (setGameStatusRef GAME_OVER (setGameStatus GAME_OVER g), false)
      else if existsb (fun segment => (x segment =? x head) && (y segment =? y head))
                      prevSnake then
        ret (setGameStatusRef GAME_OVER (setGameStatus GAME_OVER g), false)
      else
        let newSnake := head :: prevSnake in
        if (x head =? x (food g)) && (y head =? y (food g)) then
          let g1 := setScore (fun prev => prev + 10) g in
          let g2 := setSpeed (fun prev => Z.max MIN_SPEED (prev - SPEED_INCREMENT)) g1 in
          g3 <- generateFood newSnake g2 ;;
          ret (setSnake newSnake false g3, true)
        else
          ret (setSnake (removelast newSnake) false g, true)
  end.

(** One firing of the interval timer.  The interval only exists while
    the [gameStatus] cell is ['PLAYING'] (line 117); the render that
    follows the update runs the effects. *)
Definition tick (g : Game) : Rand Game :=
  if negb (GameStatus_eqb (gameStatus g) PLAYING) then ret g
  else
    r <- moveSnake g ;;
    g' <- foodEffect (snd r) (fst r) ;;
    ret (refEffects g g').

Fixpoint ticks (n : nat) (g : Game) : Rand Game :=
  match n with
  | O => ret g
  | S n' => g' <- tick g ;; ticks n' g'
  end.

(** ** The first render and the events of a session *)

Definition initialRender : Game :=
  mkGame INITIAL_SNAKE (mkPosition 5 5) UP IDLE 0 INITIAL_SPEED UP IDLE true.

(** Mounting the component runs every effect once. *)
Definition mount : Rand Game :=
  foodEffect true initialRender.

Inductive Event : Type :=
| Tick
| KeyDown (key : string)
| Swipe (dir : Direction)
| ClickStart.

(** The Start Game and Play Again buttons (lines 278-305) are only
    rendered while the status is ['IDLE'] or ['GAME_OVER']. *)
Definition dispatch (ev : Event) (g : Game) : Rand Game :=
  match ev with
  | Tick => tick g
  | KeyDown key => handleKeyDown key g
  | Swipe dir => ret (handleSwipe dir g)
  | ClickStart =>
      if GameStatus_eqb (gameStatus g) PLAYING then ret g else initGame g
  end.

(** [Math.floor(Math.random() * BOARD_SIZE)] lies in [0, BOARD_SIZE). *)
Definition inBoard (p : Position) : Prop :=
  0 <= x p < BOARD_SIZE /\ 0 <= y p < BOARD_SIZE.

Inductive reachable : Game -> Prop :=
| reachable_mount draws g rest :
    Forall inBoard draws ->
    mount draws = Some (g, rest) ->
    reachable g
| reachable_step g ev draws g' rest :
    reachable g ->
    Forall inBoard draws ->
    dispatch ev g draws = Some (g', rest) ->
    reachable g'.

(** ** Vocabulary of the specification *)

Definition opposite (d : Direction) : Direction :=
  match d with
  | UP => DOWN
  | DOWN => UP
  | LEFT => RIGHT
  | RIGHT => LEFT
  end.

(** The cell the next tick moves the head to. *)
Definition newHead (g : Game) : option Position :=
  match snake g with
  | [] => None
  | first :: _ => Some (moveHead (directionRef g) first)
  end.

(** Number of draws that are not on [snakeBody]. *)
Definition freeDraws (snakeBody : list Position) (draws : list Position) : nat :=
  List.length (filter (fun c => negb (isPositionOccupied snakeBody c)) draws).

(** What holds in every state a session can reach. *)
Record Invariant (g : Game) : Prop := mkInvariant {
  inv_nonempty : snake g <> [];
  inv_food_free : isPositionOccupied (snake g) (food g) = false;
  inv_food_board : inBoard (food g);
  inv_directionRef : directionRef g = direction g;
  inv_gameStatusRef : gameStatusRef g = gameStatus g;
  inv_initial : snakeIsInitialArray g = true -> snake g = INITIAL_SNAKE
}.

(** ** Outcomes of the handlers

    The states the handlers leave, named for the statements below. *)

(** The state a collision leaves (lines 146-148 and 153-155). *)
Definition gameOver (g : Game) : Game :=
  setGameStatusRef GAME_OVER (setGameStatus GAME_OVER g).

(** The state after the head moved onto the food (lines 161-169), up to
    the food cell. *)
Definition grown (head : Position) (g : Game) : Game :=
  setSnake (head :: snake g) false
    (setSpeed (fun prev => Z.max MIN_SPEED (prev - SPEED_INCREMENT))
       (setScore (fun prev => prev + 10) g)).

(** The state after a move that does not eat (line 172), up to the food
    cell. *)
Definition moved (head : Position) (g : Game) : Game :=
  setSnake (removelast (head :: snake g)) false g.

(** The state [initGame] builds, up to the food cell. *)
Definition started (f : Position) : Game :=
  mkGame INITIAL_SNAKE f UP PLAYING 0 INITIAL_SPEED UP PLAYING true.

(** The state after an accepted request for direction [d]. *)
Definition turned (d : Direction) (g : Game) : Game :=
  setDirectionRef d (setDirection d g).

(** The three ways a tick can end in a state whose status is PLAYING
    and whose next head is [head]: a collision, a move onto the food,
    a plain move.  [f] is the cell the food ends on. *)
Inductive TickOutcome (g : Game) (head : Position) (draws : list Position)
  : Game -> list Position -> Prop :=
| outcome_collision :
    hitsWall head = true \/ isPositionOccupied (snake g) head = true ->
    TickOutcome g head draws (gameOver g) draws
| outcome_eat f rest :
    hitsWall head = false ->
    isPositionOccupied (snake g) head = false ->
    head = food g ->
    isPositionOccupied (head :: snake g) f = false ->
    In f draws ->
    incl rest draws ->
    TickOutcome g head draws (setFood f (grown head g)) rest
| outcome_move f rest :
    hitsWall head = false ->
    isPositionOccupied (snake g) head = false ->
    head <> food g ->
    isPositionOccupied (removelast (head :: snake g)) f = false ->
    In f draws ->
    incl rest draws ->
    TickOutcome g head draws (setFood f (moved head g)) rest.

(** ** Resets and the draws they need *)

(** [initGame] relocates the food once, and once more through the
    effect on [snake] when the cell held another array. *)
Definition initGameDraws (g : Game) : nat :=
  if snakeIsInitialArray g then 1%nat else 2%nat.

Local Open Scope string_scope.

(** The test of line 68. *)
Definition isRestart (key : string) (g : Game) : bool :=
  GameStatus_eqb (gameStatusRef g) GAME_OVER
  && ((key =? " ") || (key =? "Spacebar")).

Local Close Scope string_scope.

(** The events that call [initGame]: the restart key while the game is
    over, and the button shown while the game is not running. *)
Definition isReset (ev : Event) (g : Game) : bool :=
  match ev with
  | KeyDown key => isRestart key g
  | ClickStart => negb (GameStatus_eqb (gameStatus g) PLAYING)
  | Tick | Swipe _ => false
  end.

(** ** Sample states *)

(** A snake whose head is in column 0 and that heads left. *)
Definition atLeftWall : Game :=
  mkGame [mkPosition 0 5; mkPosition 1 5; mkPosition 2 5] (mkPosition 7 7)
         LEFT PLAYING 20 140 LEFT PLAYING false.

(** The state [atLeftWall] is in once it hit the wall. *)
Definition crashed : Game := gameOver atLeftWall.

(** A snake of four cells curled into a square, about to turn onto its
    own last cell. *)
Definition curled : Game :=
  mkGame [mkPosition 5 5; mkPosition 6 5; mkPosition 6 6; mkPosition 5 6]
         (mkPosition 2 2) DOWN PLAYING 10 145 DOWN PLAYING false.

(** The snake one cell below the food, heading up. *)
Definition belowFood : Game :=
  mkGame [mkPosition 10 9; mkPosition 10 10; mkPosition 10 11] (mkPosition 10 8)
         UP PLAYING 0 150 UP PLAYING false.

(** Right after Start Game, with the food straight ahead. *)
Definition foodAhead : Game := started (mkPosition 10 9).

(** Right after Start Game, with the food away from the snake's path. *)
Definition foodAside : Game := started (mkPosition 5 5).

(** ** Rendering (lines 241 and 254-275) *)

(** [Math.round(n / d)] for integers [n] and [d > 0]: the nearest
    integer, a half going up. *)
Definition Math_round_div (n d : Z) : Z := (2 * n + d) / (2 * d).

(** The number shown after "Speed:" (line 241), without its "x". *)
Definition speedLabel (g : Game) : Z :=
  Math_round_div (INITIAL_SPEED - speed g + MIN_SPEED) SPEED_INCREMENT + 1.

(** The four looks of a grid cell (lines 264-272). *)
Inductive CellClass : Type := HeadCell | BodyCell | FoodCell | EmptyCell.

(** The cell drawn at position [index] of the grid, for the indices
    from 0 on that the grid runs over:
    [x = index % BOARD_SIZE], [y = Math.floor(index / BOARD_SIZE)]. *)
Definition cellAt (index : Z) : Position :=
  mkPosition (index mod BOARD_SIZE) (index / BOARD_SIZE).

(** The class chosen for grid cell [index].  With an empty snake
    [snake[0]] is undefined and reading its [x] throws: no class. *)
Definition cellClass (g : Game) (index : Z) : option CellClass :=
  let cell := cellAt index in
  match snake g with
  | [] => None
  | first :: others =>
      let isSnakeHead := (x first =? x cell) && (y first =? y cell) in
      let isSnakeBody :=
        existsb (fun segment => (x segment =? x cell) && (y segment =? y cell))
                others in
      let isFood := (x (food g) =? x cell) && (y (food g) =? y cell) in
      Some (if isSnakeHead then HeadCell
            else if isSnakeBody then BodyCell
            else if isFood then FoodCell
            else EmptyCell)
  end.

(** The indices [Array.from({ length: BOARD_SIZE * BOARD_SIZE })] runs
    over. *)
Definition boardIndices : list Z :=
  map Z.of_nat (seq 0 (Z.to_nat (BOARD_SIZE * BOARD_SIZE))).

(** The grid index at which a cell of the board is drawn. *)
Definition cellIndex (p : Position) : Z := y p * BOARD_SIZE + x p.

(** Whether grid cell [index] is drawn as part of the snake. *)
Definition drawnAsSnake (g : Game) (index : Z) : bool :=
  match cellClass g index with
  | Some HeadCell | Some BodyCell => true
  | _ => false
  end.

(** ** Shape of the snake and bookkeeping *)

(** Two cells one step apart, horizontally or vertically. *)
Definition adjacent (a b : Position) : Prop :=
  Z.abs (x a - x b) + Z.abs (y a - y b) = 1.

Fixpoint connected (cells : list Position) : Prop :=
  match cells with
  | a :: (b :: _) as others => adjacent a b /\ connected others
  | _ => True
  end.

(** Cells gained since the snake had its initial length. *)
Definition eaten (g : Game) : Z :=
  Z.of_nat (List.length (snake g)) - Z.of_nat (List.length INITIAL_SNAKE).

(** What the snake, the score and the speed look like in every state a
    session can reach. *)
Record WellFormed (g : Game) : Prop := mkWellFormed {
  wf_board : Forall inBoard (snake g);
  wf_nodup : NoDup (snake g);
  wf_connected : connected (snake g);
  wf_length : 0 <= eaten g;
  wf_score : score g = 10 * eaten g;
  wf_speed : speed g = Z.max MIN_SPEED (INITIAL_SPEED - SPEED_INCREMENT * eaten g)
}.


Local Open Scope string_scope.

(** The changes of status a session can make, with the event that makes
    them. *)
Inductive Transition : GameStatus -> Event -> GameStatus -> Prop :=
| transition_none s ev : Transition s ev s
| transition_start : Transition IDLE ClickStart PLAYING
| transition_crash : Transition PLAYING Tick GAME_OVER
| transition_again : Transition GAME_OVER ClickStart PLAYING
| transition_space key :
    key = " " \/ key = "Spacebar" ->
    Transition GAME_OVER (KeyDown key) PLAYING.

Local Close Scope string_scope.

(** A reachable state with a snake of four cells: [foodAhead] after one
    tick that drew (1,1) and (2,2). *)
Definition afterMeal : Game :=
  mkGame [mkPosition 10 9; mkPosition 10 10; mkPosition 10 11; mkPosition 10 12]
         (mkPosition 2 2) UP PLAYING 10 145 UP PLAYING false.

(** A reachable state whose game is over: [afterMeal] after swipes left
    and down and one tick, which runs the head into the second cell. *)
Definition crashedMeal : Game :=
  mkGame [mkPosition 10 9; mkPosition 10 10; mkPosition 10 11; mkPosition 10 12]
         (mkPosition 2 2) DOWN GAME_OVER 10 145 DOWN GAME_OVER false.

(** A snake on every cell of the board but (0,0), where the food is,
    with its head on (1,0) and heading left. *)
Definition oneCellLeft : Game :=
  mkGame (tl (map cellAt boardIndices)) (mkPosition 0 0)
         LEFT PLAYING 3960 50 LEFT PLAYING false.

(** * Properties *)

(** ** The food generator *)

Section DrawFood.

Variable snakeBody : list Position.

Lemma drawFood_sound draws c rest :
  drawFood snakeBody draws = Some (c, rest) ->
  isPositionOccupied snakeBody c = false /\
  In c draws /\
  incl rest draws /\
  freeDraws snakeBody draws = S (freeDraws snakeBody rest).
Proof.
  unfold freeDraws.
  induction draws as [|d ds IH]; simpl; [discriminate|].
  destruct (isPositionOccupied snakeBody d) eqn:Hocc; simpl.
  - intros H. destruct (IH H) as (Hc & Hin & Hincl & Hcount).
    repeat split; auto using incl_tl.
  - intros H. injection H as <- <-.
    repeat split; auto using incl_tl, incl_refl.
Qed.

Lemma drawFood_total draws :
  (1 <= freeDraws snakeBody draws)%nat ->
  exists c rest, drawFood snakeBody draws = Some (c, rest).
Proof.
  unfold freeDraws.
  induction draws as [|d ds IH]; simpl; [lia|].
  destruct (isPositionOccupied snakeBody d) eqn:Hocc; simpl.
  - exact IH.
  - intros _. eauto.
Qed.

End DrawFood.

Lemma isPositionOccupied_In snakeBody pos :
  isPositionOccupied snakeBody pos = true <-> In pos snakeBody.
Proof.
  unfold isPositionOccupied. rewrite existsb_exists. split.
  - intros (s & Hin & Heq).
    apply andb_true_iff in Heq as [Hx Hy].
    apply Z.eqb_eq in Hx, Hy.
    destruct s as [sx sy], pos as [px py]; simpl in *; subst. exact Hin.
  - intros Hin. exists pos. split; [exact Hin|].
    now rewrite !Z.eqb_refl.
Qed.

Lemma isPositionOccupied_incl body body' pos :
  incl body' body ->
  isPositionOccupied body pos = false ->
  isPositionOccupied body' pos = false.
Proof.
  intros Hincl Hfree.
  destruct (isPositionOccupied body' pos) eqn:E; [|reflexivity].
  apply isPositionOccupied_In in E. apply Hincl in E.
  apply isPositionOccupied_In in E. congruence.
Qed.

Lemma freeDraws_incl body body' draws :
  incl body' body ->
  (freeDraws body draws <= freeDraws body' draws)%nat.
Proof.
  intros Hincl. unfold freeDraws.
  induction draws as [|d ds IH]; simpl; [lia|].
  destruct (isPositionOccupied body d) eqn:E; simpl.
  - destruct (isPositionOccupied body' d); simpl; lia.
  - rewrite (isPositionOccupied_incl body body' d Hincl E). simpl. lia.
Qed.

Lemma removelast_incl {A : Type} (l : list A) : incl (removelast l) l.
Proof.
  induction l as [|a l IH]; simpl; [apply incl_refl|].
  destruct l as [|b l]; [apply incl_nil_l|].
  apply incl_cons; [now left|].
  apply incl_tl. exact IH.
Qed.

Lemma removelast_cons_length {A : Type} (a : A) (l : list A) :
  List.length (removelast (a :: l)) = List.length l.
Proof.
  revert a. induction l as [|b l IH]; intros a; [reflexivity|].
  change (removelast (a :: b :: l)) with (a :: removelast (b :: l)).
  cbn [List.length]. now rewrite IH.
Qed.

Lemma generateFood_sound snakeBody g draws g' rest :
  generateFood snakeBody g draws = Some (g', rest) ->
  exists f,
    g' = setFood f g /\
    isPositionOccupied snakeBody f = false /\
    In f draws /\
    incl rest draws /\
    freeDraws snakeBody draws = S (freeDraws snakeBody rest).
Proof.
  unfold generateFood, bind, ret.
  destruct (drawFood snakeBody draws) as [[c r]|] eqn:E; [|discriminate].
  intros H. injection H as <- <-.
  destruct (drawFood_sound _ _ _ _ E) as (H1 & H2 & H3 & H4).
  exists c. auto.
Qed.

Lemma generateFood_total snakeBody g draws :
  (1 <= freeDraws snakeBody draws)%nat ->
  exists g' rest, generateFood snakeBody g draws = Some (g', rest).
Proof.
  intros H. destruct (drawFood_total _ _ H) as (c & rest & E).
  unfold generateFood, bind, ret. rewrite E. eauto.
Qed.

(** ** Equality tests *)

Lemma Position_eqb_eq a b : Position_eqb a b = true <-> a = b.
Proof.
  unfold Position_eqb. rewrite andb_true_iff, !Z.eqb_eq.
  destruct a, b; simpl. split.
  - intros [-> ->]. reflexivity.
  - intros H. injection H as -> ->. split; reflexivity.
Qed.

Lemma Position_eqb_neq a b : Position_eqb a b = false <-> a <> b.
Proof.
  rewrite <- Position_eqb_eq. destruct (Position_eqb a b); split; congruence.
Qed.

Lemma Direction_eqb_eq a b : Direction_eqb a b = true <-> a = b.
Proof. destruct a, b; simpl; split; congruence. Qed.

Lemma Direction_eqb_refl a : Direction_eqb a a = true.
Proof. now apply Direction_eqb_eq. Qed.

Lemma GameStatus_eqb_eq a b : GameStatus_eqb a b = true <-> a = b.
Proof. destruct a, b; simpl; split; congruence. Qed.

Lemma GameStatus_eqb_refl a : GameStatus_eqb a a = true.
Proof. now apply GameStatus_eqb_eq. Qed.

Lemma hitsWall_true head :
  hitsWall head = true <->
  x head < 0 \/ x head >= 20 \/ y head < 0 \/ y head >= 20.
Proof.
  unfold hitsWall, BOARD_SIZE.
  rewrite !orb_true_iff, !Z.ltb_lt, !Z.geb_le. lia.
Qed.

Lemma hitsWall_false head : hitsWall head = false <-> inBoard head.
Proof.
  unfold inBoard. destruct (hitsWall head) eqn:E.
  - apply hitsWall_true in E. unfold BOARD_SIZE. split; [discriminate|lia].
  - split; [intros _|reflexivity].
    assert (H : ~ (x head < 0 \/ x head >= 20 \/ y head < 0 \/ y head >= 20)).
    { rewrite <- hitsWall_true. congruence. }
    unfold BOARD_SIZE. lia.
Qed.

Lemma refEffects_same old g :
  direction g = direction old ->
  gameStatus g = gameStatus old ->
  refEffects old g = g.
Proof.
  intros Hd Hs. unfold refEffects.
  rewrite Hd, Direction_eqb_refl, Hs, GameStatus_eqb_refl. reflexivity.
Qed.

(** ** One tick, case by case *)

Lemma newHead_Some g head :
  newHead g = Some head ->
  exists first others,
    snake g = first :: others /\ head = moveHead (directionRef g) first.
Proof.
  unfold newHead. destruct (snake g) as [|first others]; [discriminate|].
  intros H. injection H as <-. eauto.
Qed.

Lemma moveSnake_eq g head :
  newHead g = Some head ->
  moveSnake g =
  if hitsWall head || isPositionOccupied (snake g) head
  then ret (gameOver g, false)
  else if Position_eqb head (food g)
       then g3 <- generateFood (head :: snake g)
                    (setSpeed (fun prev => Z.max MIN_SPEED (prev - SPEED_INCREMENT))
                       (setScore (fun prev => prev + 10) g)) ;;
            ret (setSnake (head :: snake g) false g3, true)
       else ret (moved head g, true).
Proof.
  intros Hhead.
  destruct (newHead_Some _ _ Hhead) as (first & others & Hsnake & ->).
  unfold moveSnake, gameOver, moved, isPositionOccupied, Position_eqb.
  cbv zeta. rewrite Hsnake.
  destruct (hitsWall _); [reflexivity|].
  destruct (existsb _ _); reflexivity.
Qed.

Lemma refEffects_gameOver g :
  gameStatus g = PLAYING -> refEffects g (gameOver g) = gameOver g.
Proof.
  intros Hplay. unfold refEffects. simpl.
  rewrite Direction_eqb_refl, Hplay. reflexivity.
Qed.

Lemma bind_Some {A B : Type} (m : Rand A) (k : A -> Rand B) draws b rest :
  bind m k draws = Some (b, rest) ->
  exists a mid, m draws = Some (a, mid) /\ k a mid = Some (b, rest).
Proof.
  unfold bind. destruct (m draws) as [[a mid]|]; [|discriminate]. eauto.
Qed.

Lemma ret_Some {A : Type} (a : A) draws b rest :
  ret a draws = Some (b, rest) -> b = a /\ rest = draws.
Proof. unfold ret. intros H. injection H as <- <-. auto. Qed.

Lemma tick_outcome g head draws g' rest :
  gameStatus g = PLAYING ->
  newHead g = Some head ->
  tick g draws = Some (g', rest) ->
  TickOutcome g head draws g' rest.
Proof.
  intros Hplay Hhead.
  unfold tick. rewrite Hplay, (moveSnake_eq _ _ Hhead). simpl negb. cbv iota.
  intros H.
  apply bind_Some in H as ([g1 changed] & d1 & Hmove & H).
  apply bind_Some in H as (g2 & d2 & Heffect & H).
  apply ret_Some in H as [-> ->]. simpl in Heffect.
  destruct (hitsWall head) eqn:Hwall; simpl orb in Hmove; cbv iota in Hmove.
  { apply ret_Some in Hmove as [Hg1 ->]. injection Hg1 as -> ->.
    apply ret_Some in Heffect as [-> ->].
    rewrite (refEffects_gameOver _ Hplay).
    apply outcome_collision. now left. }
  destruct (isPositionOccupied (snake g) head) eqn:Hself.
  { apply ret_Some in Hmove as [Hg1 ->]. injection Hg1 as -> ->.
    apply ret_Some in Heffect as [-> ->].
    rewrite (refEffects_gameOver _ Hplay).
    apply outcome_collision. now right. }
  destruct (Position_eqb head (food g)) eqn:Heat.
  - apply Position_eqb_eq in Heat.
    apply bind_Some in Hmove as (g3 & d3 & Hgen & Hmove).
    apply ret_Some in Hmove as [Hg1 ->]. injection Hg1 as -> ->.
    apply generateFood_sound in Hgen as (f3 & -> & _ & _ & Hincl3 & _).
    apply generateFood_sound in Heffect as (f & -> & Hfree & Hin & Hincl & _).
    simpl in Hfree.
    rewrite refEffects_same by reflexivity.
    change (setFood f _) with (setFood f (grown head g)).
    apply outcome_eat; auto.
    eapply incl_tran; eassumption.
  - apply Position_eqb_neq in Heat.
    apply ret_Some in Hmove as [Hg1 ->]. injection Hg1 as -> ->.
    apply generateFood_sound in Heffect as (f & -> & Hfree & Hin & Hincl & _).
    simpl in Hfree.
    rewrite refEffects_same by reflexivity.
    apply outcome_move; auto.
Qed.

Lemma tick_total g head draws :
  newHead g = Some head ->
  (2 <= freeDraws (head :: snake g) draws)%nat ->
  exists g' rest, tick g draws = Some (g', rest).
Proof.
  intros Hhead Hdraws. unfold tick.
  destruct (negb (GameStatus_eqb (gameStatus g) PLAYING)); [unfold ret; eauto|].
  rewrite (moveSnake_eq _ _ Hhead).
  destruct (hitsWall head || isPositionOccupied (snake g) head).
  { unfold bind, ret. simpl. eauto. }
  destruct (Position_eqb head (food g)).
  - destruct (generateFood_total (head :: snake g)
                (setSpeed (fun prev => Z.max MIN_SPEED (prev - SPEED_INCREMENT))
                   (setScore (fun prev => prev + 10) g)) draws)
      as (g3 & d3 & Hgen); [lia|].
    pose proof (generateFood_sound _ _ _ _ _ Hgen) as (_ & _ & _ & _ & _ & Hcount).
    destruct (generateFood_total (head :: snake g)
                (setSnake (head :: snake g) false g3) d3)
      as (g4 & d4 & Hgen'); [lia|].
    unfold bind at 1 2. unfold bind at 1. rewrite Hgen. unfold ret at 1.
    simpl. unfold bind. rewrite Hgen'. unfold ret. eauto.
  - pose proof (freeDraws_incl (head :: snake g) (removelast (head :: snake g))
                  draws (removelast_incl _)) as Hle.
    destruct (generateFood_total (removelast (head :: snake g))
                (moved head g) draws) as (g4 & d4 & Hgen'); [lia|].
    unfold bind at 1 2. unfold ret at 1. simpl fst. simpl snd. cbv beta iota.
    unfold foodEffect. change (snake (moved head g)) with (removelast (head :: snake g)).
    unfold bind. rewrite Hgen'. unfold ret. eauto.
Qed.

(** ** Restarting *)

Lemma refEffects_started old f : refEffects old (started f) = started f.
Proof.
  unfold refEffects.
  destruct (direction old), (gameStatus old); reflexivity.
Qed.

Lemma initGame_sound g draws g' rest :
  initGame g draws = Some (g', rest) ->
  exists f,
    g' = started f /\
    isPositionOccupied INITIAL_SNAKE f = false /\
    In f draws /\
    incl rest draws.
Proof.
  unfold initGame. intros H.
  apply bind_Some in H as (g6 & d6 & Hgen & H).
  apply bind_Some in H as (g9 & d9 & Heffect & H).
  apply ret_Some in H as [-> ->].
  apply generateFood_sound in Hgen as (f6 & -> & Hfree6 & Hin6 & Hincl6 & _).
  unfold foodEffect in Heffect.
  destruct (negb (snakeIsInitialArray g)).
  - apply generateFood_sound in Heffect as (f9 & -> & Hfree9 & Hin9 & Hincl9 & _).
    exists f9.
    change (setFood f9 _) with (started f9).
    rewrite refEffects_started.
    repeat split;
      [exact Hfree9 | exact (Hincl6 _ Hin9) | exact (incl_tran Hincl9 Hincl6)].
  - apply ret_Some in Heffect as [-> ->].
    exists f6.
    change (setGameStatusRef _ _) with (started f6).
    rewrite refEffects_started. auto.
Qed.

Lemma initGame_total g draws :
  (initGameDraws g <= freeDraws INITIAL_SNAKE draws)%nat ->
  exists g' rest, initGame g draws = Some (g', rest).
Proof.
  unfold initGameDraws. intros Hdraws. unfold initGame.
  match goal with
  | |- context [bind (generateFood INITIAL_SNAKE ?g5) _] =>
      destruct (generateFood_total INITIAL_SNAKE g5 draws)
        as (g6 & d6 & Hgen); [destruct (snakeIsInitialArray g); lia|]
  end.
  unfold bind at 1. rewrite Hgen.
  destruct (generateFood_sound _ _ _ _ _ Hgen) as (f6 & -> & _ & _ & _ & Hcount).
  unfold foodEffect. destruct (snakeIsInitialArray g); simpl negb; cbv iota.
  - unfold bind, ret. eauto.
  - match goal with
    | |- context [bind (generateFood ?b ?h) _] =>
        destruct (generateFood_total b h d6) as (g9 & d9 & Hgen'); [simpl; lia|]
    end.
    unfold bind. rewrite Hgen'. unfold ret. eauto.
Qed.

(** ** Keys and swipes *)

Lemma refEffects_turned d g : refEffects g (turned d g) = turned d g.
Proof.
  unfold refEffects. simpl.
  destruct (Direction_eqb (direction g) d); simpl;
    rewrite GameStatus_eqb_refl; reflexivity.
Qed.

Lemma refEffects_refl g : refEffects g g = g.
Proof. now apply refEffects_same. Qed.

Lemma handleSwipe_eq d g :
  handleSwipe d g =
  if GameStatus_eqb (gameStatusRef g) PLAYING
     && negb (Direction_eqb d (opposite (directionRef g)))
  then turned d g else g.
Proof.
  unfold handleSwipe.
  destruct (GameStatus_eqb (gameStatusRef g) PLAYING); simpl; [|reflexivity].
  destruct d, (directionRef g); simpl;
    first [ apply refEffects_turned | apply refEffects_refl ].
Qed.

Lemma handleKeyDown_eq key g :
  handleKeyDown key g =
  if isRestart key g then initGame g
  else ret match keyDirection key with
           | Some d => handleSwipe d g
           | None => g
           end.
Proof.
  unfold handleKeyDown, isRestart.
  destruct (GameStatus_eqb (gameStatusRef g) GAME_OVER && _); [reflexivity|].
  unfold handleSwipe.
  destruct (negb (GameStatus_eqb (gameStatusRef g) PLAYING)).
  - destruct (keyDirection key); reflexivity.
  - destruct (keyDirection key) as [[]|]; reflexivity.
Qed.

(** ** The invariant of a session *)

Lemma Forall_inBoard_In draws f :
  Forall inBoard draws -> In f draws -> inBoard f.
Proof. intros H. rewrite Forall_forall in H. apply H. Qed.

Lemma Invariant_started f :
  isPositionOccupied INITIAL_SNAKE f = false ->
  inBoard f ->
  Invariant (started f).
Proof. intros Hfree Hboard. split; simpl; auto. discriminate. Qed.

Lemma Invariant_mount draws g rest :
  Forall inBoard draws ->
  mount draws = Some (g, rest) ->
  Invariant g.
Proof.
  intros Hdraws H. unfold mount, foodEffect in H.
  apply generateFood_sound in H as (f & -> & Hfree & Hin & _).
  split; simpl; auto.
  - discriminate.
  - eapply Forall_inBoard_In; eassumption.
Qed.

Lemma Invariant_initGame g draws g' rest :
  Forall inBoard draws ->
  initGame g draws = Some (g', rest) ->
  Invariant g'.
Proof.
  intros Hdraws H.
  apply initGame_sound in H as (f & -> & Hfree & Hin & _).
  apply Invariant_started; [exact Hfree|].
  eapply Forall_inBoard_In; eassumption.
Qed.

Lemma Invariant_newHead g :
  Invariant g -> exists head, newHead g = Some head.
Proof.
  intros [Hne _ _ _ _ _]. unfold newHead.
  destruct (snake g); [congruence|eauto].
Qed.

Lemma Invariant_tick g draws g' rest :
  Invariant g ->
  Forall inBoard draws ->
  tick g draws = Some (g', rest) ->
  Invariant g'.
Proof.
  intros Hinv Hdraws H.
  destruct (GameStatus_eqb (gameStatus g) PLAYING) eqn:Hplay.
  - apply GameStatus_eqb_eq in Hplay.
    destruct (Invariant_newHead _ Hinv) as (head & Hhead).
    destruct Hinv as [Hne Hfree Hboard Hdir Hstat Hinit].
    destruct (tick_outcome _ _ _ _ _ Hplay Hhead H)
      as [Hhit | f r _ _ _ Hf Hin _ | f r _ _ _ Hf Hin _].
    + split; simpl; auto.
    + split; simpl; auto; try discriminate.
      eapply Forall_inBoard_In; eassumption.
    + split; simpl snake; simpl food; auto; try discriminate.
      * destruct (snake g); [congruence|discriminate].
      * eapply Forall_inBoard_In; eassumption.
  - unfold tick in H. rewrite Hplay in H. simpl in H.
    apply ret_Some in H as [-> _]. exact Hinv.
Qed.

Lemma Invariant_handleSwipe d g : Invariant g -> Invariant (handleSwipe d g).
Proof.
  intros Hinv. rewrite handleSwipe_eq.
  destruct (_ && _); [|exact Hinv].
  destruct Hinv. split; simpl; auto.
Qed.

Lemma Invariant_dispatch ev g draws g' rest :
  Invariant g ->
  Forall inBoard draws ->
  dispatch ev g draws = Some (g', rest) ->
  Invariant g'.
Proof.
  intros Hinv Hdraws. destruct ev as [|key|dir|]; simpl.
  - apply Invariant_tick; assumption.
  - rewrite handleKeyDown_eq. destruct (isRestart key g).
    + apply Invariant_initGame; assumption.
    + intros H. apply ret_Some in H as [-> _].
      destruct (keyDirection key); [now apply Invariant_handleSwipe|exact Hinv].
  - intros H. apply ret_Some in H as [-> _]. now apply Invariant_handleSwipe.
  - destruct (GameStatus_eqb (gameStatus g) PLAYING).
    + intros H. apply ret_Some in H as [-> _]. exact Hinv.
    + apply Invariant_initGame; assumption.
Qed.

Lemma reachable_Invariant g : reachable g -> Invariant g.
Proof.
  induction 1 as [draws g rest Hdraws Hmount | g ev draws g' rest _ IH Hdraws Hstep].
  - eapply Invariant_mount; eassumption.
  - eapply Invariant_dispatch; eassumption.
Qed.

(** * The claims *)

Lemma not_occupied_not_In body pos :
  isPositionOccupied body pos = false <-> ~ In pos body.
Proof.
  rewrite <- isPositionOccupied_In.
  destruct (isPositionOccupied body pos); split; congruence.
Qed.

(** ** Wall collision *)

(** C5.  A tick whose new head lies outside the board (x < 0, x >= 20,
    y < 0 or y >= 20) sets the status to GAME_OVER and leaves snake,
    food, score, speed and direction as they were; it draws no random
    cell. *)
Theorem C5_wall_collision_game_over g draws head :
  gameStatus g = PLAYING ->
  newHead g = Some head ->
  x head < 0 \/ x head >= 20 \/ y head < 0 \/ y head >= 20 ->
  exists g',
    tick g draws = Some (g', draws) /\
    gameStatus g' = GAME_OVER /\
    snake g' = snake g /\
    food g' = food g /\
    score g' = score g /\
    speed g' = speed g /\
    direction g' = direction g /\
    directionRef g' = directionRef g.
Proof.
  intros Hplay Hhead Hout. apply hitsWall_true in Hout.
  exists (gameOver g). split; [|repeat split].
  unfold tick. rewrite Hplay, (moveSnake_eq _ _ Hhead), Hout. simpl.
  unfold bind, ret. simpl. now rewrite (refEffects_gameOver _ Hplay).
Qed.

Lemma C5_wall_collision_witness :
  exists g',
    tick atLeftWall [] = Some (g', []) /\
    gameStatus g' = GAME_OVER /\
    snake g' = snake atLeftWall /\
    food g' = food atLeftWall /\
    score g' = score atLeftWall /\
    speed g' = speed atLeftWall /\
    direction g' = direction atLeftWall /\
    directionRef g' = directionRef atLeftWall.
Proof.
  apply (C5_wall_collision_game_over atLeftWall [] (mkPosition (-1) 5)).
  - reflexivity.
  - reflexivity.
  - left. simpl. lia.
Defined.

(** ** After the game is over *)

(** C7.  In a state whose status is GAME_OVER any number of ticks in a
    row changes nothing: the whole state, and with it snake, food,
    score, speed, direction and status, stays as it is, and no random
    cell is drawn. *)
Theorem C7_tick_noop_after_game_over n g draws :
  gameStatus g = GAME_OVER ->
  ticks n g draws = Some (g, draws).
Proof.
  intros Hover. induction n as [|n IH]; simpl; [reflexivity|].
  unfold bind, tick. rewrite Hover. simpl. exact IH.
Qed.

Lemma C7_tick_noop_witness :
  gameStatus crashed = GAME_OVER /\
  ticks 3 crashed [mkPosition 1 1] = Some (crashed, [mkPosition 1 1]).
Proof.
  split; [reflexivity|].
  apply (C7_tick_noop_after_game_over 3 crashed [mkPosition 1 1]).
  reflexivity.
Defined.

(** ** Running into the tail *)

(** C9.  If the new head is inside the board and is the cell the tail
    (the last cell of the snake) occupies now, the tick ends the game:
    the status becomes GAME_OVER and nothing else changes. *)
Theorem C9_moving_onto_tail_game_over g draws head front :
  gameStatus g = PLAYING ->
  newHead g = Some head ->
  inBoard head ->
  snake g = front ++ [head] ->
  exists g',
    tick g draws = Some (g', draws) /\
    gameStatus g' = GAME_OVER /\
    snake g' = snake g /\
    food g' = food g /\
    score g' = score g /\
    speed g' = speed g /\
    direction g' = direction g /\
    directionRef g' = directionRef g.
Proof.
  intros Hplay Hhead Hboard Htail.
  assert (Hself : isPositionOccupied (snake g) head = true).
  { apply isPositionOccupied_In. rewrite Htail.
    apply in_or_app. right. now left. }
  exists (gameOver g). split; [|repeat split].
  unfold tick. rewrite Hplay, (moveSnake_eq _ _ Hhead), Hself, orb_true_r.
  simpl. unfold bind, ret. simpl. now rewrite (refEffects_gameOver _ Hplay).
Qed.

Lemma C9_moving_onto_tail_witness :
  exists g',
    tick curled [] = Some (g', []) /\
    gameStatus g' = GAME_OVER /\
    snake g' = snake curled /\
    food g' = food curled /\
    score g' = score curled /\
    speed g' = speed curled /\
    direction g' = direction curled /\
    directionRef g' = directionRef curled.
Proof.
  apply (C9_moving_onto_tail_game_over curled [] (mkPosition 5 6)
           [mkPosition 5 5; mkPosition 6 5; mkPosition 6 6]).
  - reflexivity.
  - reflexivity.
  - unfold inBoard, BOARD_SIZE. simpl. lia.
  - reflexivity.
Defined.

(** ** Eating *)

(** C2.  A tick whose new head is the food cell, inside the board and
    off the snake, adds 10 to the score, sets the speed to
    max(50, speed - 5), keeps every cell of the snake behind the new
    head (one cell longer), and leaves the food on a drawn cell that is
    not on the new snake.  The tick finishes as soon as the random
    source yields two cells off the new snake: one for the relocation
    in the updater, one for the relocation by the effect on [snake]. *)
Theorem C2_eating_food g draws head :
  gameStatus g = PLAYING ->
  newHead g = Some head ->
  inBoard head ->
  ~ In head (snake g) ->
  head = food g ->
  (2 <= freeDraws (head :: snake g) draws)%nat ->
  exists g' rest,
    tick g draws = Some (g', rest) /\
    score g' = score g + 10 /\
    speed g' = Z.max 50 (speed g - 5) /\
    snake g' = head :: snake g /\
    List.length (snake g') = S (List.length (snake g)) /\
    ~ In (food g') (snake g') /\
    In (food g') draws /\
    gameStatus g' = PLAYING /\
    direction g' = direction g.
Proof.
  intros Hplay Hhead Hboard Hoff Heat Hdraws.
  destruct (tick_total _ _ _ Hhead Hdraws) as (g' & rest & Htick).
  exists g', rest. split; [exact Htick|].
  apply hitsWall_false in Hboard. apply not_occupied_not_In in Hoff.
  destruct (tick_outcome _ _ _ _ _ Hplay Hhead Htick)
    as [[Hhit|Hhit] | f r _ _ _ Hf Hin _ | f r _ _ Hne _ _ _];
    try congruence.
  simpl. repeat split; auto.
  apply not_occupied_not_In in Hf. exact Hf.
Qed.

Lemma C2_eating_food_witness :
  exists g' rest,
    tick belowFood [mkPosition 10 9; mkPosition 3 3; mkPosition 4 4]
      = Some (g', rest) /\
    score g' = score belowFood + 10 /\
    speed g' = Z.max 50 (speed belowFood - 5) /\
    snake g' = mkPosition 10 8 :: snake belowFood /\
    List.length (snake g') = S (List.length (snake belowFood)) /\
    ~ In (food g') (snake g') /\
    In (food g') [mkPosition 10 9; mkPosition 3 3; mkPosition 4 4] /\
    gameStatus g' = PLAYING /\
    direction g' = direction belowFood.
Proof.
  apply (C2_eating_food belowFood
           [mkPosition 10 9; mkPosition 3 3; mkPosition 4 4] (mkPosition 10 8)).
  - reflexivity.
  - reflexivity.
  - unfold inBoard, BOARD_SIZE. simpl. lia.
  - apply not_occupied_not_In. reflexivity.
  - reflexivity.
  - vm_compute. lia.
Defined.

(** ** Length of the snake *)

Lemma handleSwipe_snake d g : snake (handleSwipe d g) = snake g.
Proof. rewrite handleSwipe_eq. destruct (_ && _); reflexivity. Qed.

Lemma length_gameOver g :
  List.length (snake (gameOver g)) = List.length (snake g).
Proof. reflexivity. Qed.

Lemma length_grown f head g :
  List.length (snake (setFood f (grown head g))) = S (List.length (snake g)).
Proof. reflexivity. Qed.

Lemma length_moved f head g :
  List.length (snake (setFood f (moved head g))) = List.length (snake g).
Proof. apply removelast_cons_length. Qed.

Lemma tick_length g draws g' rest :
  tick g draws = Some (g', rest) ->
  (List.length (snake g) <= List.length (snake g'))%nat.
Proof.
  intros H.
  destruct (GameStatus_eqb (gameStatus g) PLAYING) eqn:Hplay.
  - apply GameStatus_eqb_eq in Hplay.
    destruct (newHead g) as [head|] eqn:Hhead.
    + destruct (tick_outcome _ _ _ _ _ Hplay Hhead H).
      * rewrite length_gameOver. lia.
      * rewrite length_grown. lia.
      * rewrite length_moved. lia.
    + unfold newHead in Hhead.
      destruct (snake g) eqn:Hsnake; [simpl; lia|discriminate].
  - unfold tick in H. rewrite Hplay in H. simpl in H.
    apply ret_Some in H as [-> _]. lia.
Qed.

Lemma dispatch_length ev s ds s' rest :
  isReset ev s = false ->
  dispatch ev s ds = Some (s', rest) ->
  (List.length (snake s) <= List.length (snake s'))%nat.
Proof.
  intros Hev. destruct ev as [|key|dir|]; simpl in *.
  - apply tick_length.
  - rewrite handleKeyDown_eq, Hev. intros H. apply ret_Some in H as [-> _].
    destruct (keyDirection key); [rewrite handleSwipe_snake|]; lia.
  - intros H. apply ret_Some in H as [-> _]. rewrite handleSwipe_snake. lia.
  - destruct (GameStatus_eqb (gameStatus s) PLAYING); [|discriminate].
    intros H. apply ret_Some in H as [-> _]. lia.
Qed.

(** C1.  In a reachable state whose status is PLAYING a tick finishes
    once the random source yields two cells off the snake and the new
    head; whenever it finishes, the snake is as long as before or one
    cell longer, and it is one cell longer exactly when the new head is
    the food cell.  No event other than a reset makes the snake
    shorter. *)
Theorem C1_snake_length g draws head :
  reachable g ->
  gameStatus g = PLAYING ->
  newHead g = Some head ->
  ((2 <= freeDraws (head :: snake g) draws)%nat ->
   exists g' rest, tick g draws = Some (g', rest)) /\
  (forall g' rest,
     tick g draws = Some (g', rest) ->
     (List.length (snake g') = List.length (snake g) \/
      List.length (snake g') = S (List.length (snake g))) /\
     (List.length (snake g') = S (List.length (snake g)) <-> head = food g)) /\
  (forall ev s ds s' rest,
     isReset ev s = false ->
     dispatch ev s ds = Some (s', rest) ->
     (List.length (snake s) <= List.length (snake s'))%nat).
Proof.
  intros Hreach Hplay Hhead.
  apply reachable_Invariant in Hreach.
  destruct Hreach as [_ Hfree Hboard _ _ _].
  split; [apply tick_total; exact Hhead|]. split.
  - intros g' rest Htick.
    destruct (tick_outcome _ _ _ _ _ Hplay Hhead Htick)
      as [[Hhit|Hhit] | f r _ _ Heat _ _ _ | f r _ _ Hne _ _ _].
    + rewrite length_gameOver. split; [now left|]. split; [lia|].
      intros ->. apply hitsWall_false in Hboard. congruence.
    + rewrite length_gameOver. split; [now left|]. split; [lia|].
      intros ->. congruence.
    + rewrite length_grown. split; [now right|]. tauto.
    + rewrite length_moved. split; [now left|].
      split; [lia|]. intros E. contradiction.
  - apply dispatch_length.
Qed.

(** *** A short session: mount, press Start Game *)

Lemma generateFood_first snakeBody g f rest :
  isPositionOccupied snakeBody f = false ->
  generateFood snakeBody g (f :: rest) = Some (setFood f g, rest).
Proof.
  intros Hfree. unfold generateFood, bind, ret.
  cbn [drawFood]. rewrite Hfree. reflexivity.
Qed.

Lemma reachable_started f :
  inBoard f ->
  isPositionOccupied INITIAL_SNAKE f = false ->
  reachable (started f).
Proof.
  intros Hboard Hfree.
  assert (Hdraws : Forall inBoard [f]) by (constructor; [exact Hboard|constructor]).
  apply (reachable_step (setFood f initialRender) ClickStart [f] (started f) []);
    [|exact Hdraws|].
  - apply (reachable_mount [f] _ []); [exact Hdraws|].
    unfold mount, foodEffect. now apply generateFood_first.
  - unfold dispatch, initGame, foodEffect.
    cbn [gameStatus setFood initialRender GameStatus_eqb snakeIsInitialArray negb].
    unfold bind at 1. rewrite (generateFood_first _ _ _ _ Hfree).
    unfold bind, ret. reflexivity.
Qed.

Lemma reachable_foodAhead : reachable foodAhead.
Proof.
  apply reachable_started; [|reflexivity].
  unfold inBoard, BOARD_SIZE. simpl. lia.
Qed.

Lemma C1_snake_length_witness :
  ((2 <= freeDraws (mkPosition 10 9 :: snake foodAhead)
           [mkPosition 1 1; mkPosition 2 2])%nat ->
   exists g' rest,
     tick foodAhead [mkPosition 1 1; mkPosition 2 2] = Some (g', rest)) /\
  (forall g' rest,
     tick foodAhead [mkPosition 1 1; mkPosition 2 2] = Some (g', rest) ->
     (List.length (snake g') = List.length (snake foodAhead) \/
      List.length (snake g') = S (List.length (snake foodAhead))) /\
     (List.length (snake g') = S (List.length (snake foodAhead)) <->
      mkPosition 10 9 = food foodAhead)) /\
  (forall ev s ds s' rest,
     isReset ev s = false ->
     dispatch ev s ds = Some (s', rest) ->
     (List.length (snake s) <= List.length (snake s'))%nat).
Proof.
  apply (C1_snake_length foodAhead [mkPosition 1 1; mkPosition 2 2]
           (mkPosition 10 9)).
  - exact reachable_foodAhead.
  - reflexivity.
  - reflexivity.
Defined.

(** ** Food and snake never overlap *)

Lemma tick_food_free g draws g' rest :
  ~ In (food g) (snake g) ->
  tick g draws = Some (g', rest) ->
  ~ In (food g') (snake g').
Proof.
  intros Hfree H.
  destruct (GameStatus_eqb (gameStatus g) PLAYING) eqn:Hplay.
  - apply GameStatus_eqb_eq in Hplay.
    destruct (newHead g) as [head|] eqn:Hhead.
    + destruct (tick_outcome _ _ _ _ _ Hplay Hhead H)
        as [_ | f r _ _ _ Hf _ _ | f r _ _ _ Hf _ _].
      * exact Hfree.
      * apply not_occupied_not_In. exact Hf.
      * apply not_occupied_not_In. exact Hf.
    + unfold newHead in Hhead.
      destruct (snake g) eqn:Hsnake; [|discriminate].
      unfold tick, moveSnake in H. rewrite Hplay, Hsnake in H. simpl in H.
      apply bind_Some in H as (r & d1 & Hr & H).
      apply ret_Some in Hr as [-> ->].
      apply bind_Some in H as (g2 & d2 & Hgen & H).
      apply ret_Some in H as [-> _].
      apply generateFood_sound in Hgen as (f & -> & _).
      rewrite refEffects_same by reflexivity. simpl. tauto.
  - unfold tick in H. rewrite Hplay in H. simpl in H.
    apply ret_Some in H as [-> _]. exact Hfree.
Qed.

(** C3.  In every reachable state the food is on no cell of the snake.
    A call [generateFood(snakeBody)] that returns leaves the food off
    [snakeBody] and the snake as it was, and it returns as soon as one
    drawn cell is off [snakeBody].  A tick that finishes leaves the
    food off the snake it leaves, and it finishes once two drawn cells
    are off the snake and the new head. *)
Theorem C3_food_off_snake g :
  reachable g ->
  ~ In (food g) (snake g) /\
  (forall snakeBody draws g' rest,
     generateFood snakeBody g draws = Some (g', rest) ->
     ~ In (food g') snakeBody /\ snake g' = snake g) /\
  (forall snakeBody draws,
     (1 <= freeDraws snakeBody draws)%nat ->
     exists g' rest, generateFood snakeBody g draws = Some (g', rest)) /\
  (forall draws g' rest,
     tick g draws = Some (g', rest) ->
     ~ In (food g') (snake g')) /\
  (forall draws head,
     newHead g = Some head ->
     (2 <= freeDraws (head :: snake g) draws)%nat ->
     exists g' rest, tick g draws = Some (g', rest)).
Proof.
  intros Hreach. apply reachable_Invariant in Hreach.
  assert (Hfree : ~ In (food g) (snake g)).
  { apply not_occupied_not_In. now destruct Hreach. }
  split; [exact Hfree|]. split; [|split; [|split]].
  - intros snakeBody draws g' rest H.
    apply generateFood_sound in H as (f & -> & Hf & _).
    split; [|reflexivity]. apply not_occupied_not_In. exact Hf.
  - intros snakeBody draws. apply generateFood_total.
  - intros draws g' rest. now apply tick_food_free.
  - intros draws head. apply tick_total.
Qed.

Lemma C3_food_off_snake_witness :
  ~ In (food foodAhead) (snake foodAhead) /\
  (forall snakeBody draws g' rest,
     generateFood snakeBody foodAhead draws = Some (g', rest) ->
     ~ In (food g') snakeBody /\ snake g' = snake foodAhead) /\
  (forall snakeBody draws,
     (1 <= freeDraws snakeBody draws)%nat ->
     exists g' rest, generateFood snakeBody foodAhead draws = Some (g', rest)) /\
  (forall draws g' rest,
     tick foodAhead draws = Some (g', rest) ->
     ~ In (food g') (snake g')) /\
  (forall draws head,
     newHead foodAhead = Some head ->
     (2 <= freeDraws (head :: snake foodAhead) draws)%nat ->
     exists g' rest, tick foodAhead draws = Some (g', rest)).
Proof.
  apply (C3_food_off_snake foodAhead). exact reachable_foodAhead.
Defined.

(** ** Reset *)

(** C8.  From any state, whatever its status, [initGame] sets the snake
    to [(10,10); (10,11); (10,12)], the direction to UP, the score to
    0, the speed to 150 and the status to PLAYING, and leaves the food
    on a drawn cell that is not on the snake.  It finishes once the
    random source yields as many cells off the initial snake as it
    relocates the food. *)
Theorem C8_reset g draws :
  (initGameDraws g <= freeDraws INITIAL_SNAKE draws)%nat ->
  exists g' rest,
    initGame g draws = Some (g', rest) /\
    snake g' = [mkPosition 10 10; mkPosition 10 11; mkPosition 10 12] /\
    direction g' = UP /\
    directionRef g' = UP /\
    score g' = 0 /\
    speed g' = 150 /\
    gameStatus g' = PLAYING /\
    gameStatusRef g' = PLAYING /\
    ~ In (food g') (snake g') /\
    In (food g') draws.
Proof.
  intros Hdraws.
  destruct (initGame_total _ _ Hdraws) as (g' & rest & Hinit).
  exists g', rest. split; [exact Hinit|].
  apply initGame_sound in Hinit as (f & -> & Hfree & Hin & _).
  repeat split; try reflexivity; [|exact Hin].
  change (~ In f INITIAL_SNAKE).
  apply not_occupied_not_In. exact Hfree.
Qed.

Lemma C8_reset_witness :
  exists g' rest,
    initGame crashed
      [mkPosition 10 10; mkPosition 3 3; mkPosition 10 12; mkPosition 4 4]
      = Some (g', rest) /\
    snake g' = [mkPosition 10 10; mkPosition 10 11; mkPosition 10 12] /\
    direction g' = UP /\
    directionRef g' = UP /\
    score g' = 0 /\
    speed g' = 150 /\
    gameStatus g' = PLAYING /\
    gameStatusRef g' = PLAYING /\
    ~ In (food g') (snake g') /\
    In (food g')
       [mkPosition 10 10; mkPosition 3 3; mkPosition 10 12; mkPosition 4 4].
Proof.
  apply (C8_reset crashed
           [mkPosition 10 10; mkPosition 3 3; mkPosition 10 12; mkPosition 4 4]).
  vm_compute. lia.
Defined.

(** ** Changing direction *)

Lemma keyDirection_not_restart key d g :
  keyDirection key = Some d -> isRestart key g = false.
Proof.
  unfold keyDirection, isRestart. intros H.
  apply andb_false_iff. right.
  repeat match type of H with
  | (if ?a || ?b || ?c then _ else _) = _ =>
      let Ea := fresh "E" in
      let Eb := fresh "E" in
      let Ec := fresh "E" in
      destruct a eqn:Ea;
        [apply String.eqb_eq in Ea; subst key; reflexivity|];
      destruct b eqn:Eb;
        [apply String.eqb_eq in Eb; subst key; reflexivity|];
      destruct c eqn:Ec;
        [apply String.eqb_eq in Ec; subst key; reflexivity|];
      simpl in H
  end.
  discriminate.
Qed.

(** C6.  A request for direction [d], by swipe or by one of the keys
    mapped to [d], does nothing unless the status is PLAYING, and does
    nothing when [d] is the reverse of the current direction; otherwise
    [d] is the direction the next tick moves the head in, and nothing
    but the direction changes.  In a reachable state the status and the
    direction the handlers read are the ones of the state. *)
Theorem C6_direction_request d g :
  (gameStatusRef g <> PLAYING -> handleSwipe d g = g) /\
  (d = opposite (directionRef g) -> handleSwipe d g = g) /\
  (gameStatusRef g = PLAYING ->
   d <> opposite (directionRef g) ->
   handleSwipe d g = turned d g /\
   directionRef (handleSwipe d g) = d /\
   direction (handleSwipe d g) = d /\
   forall first others,
     snake g = first :: others ->
     newHead (handleSwipe d g) = Some (moveHead d first)) /\
  (forall key draws,
     keyDirection key = Some d ->
     handleKeyDown key g draws = Some (handleSwipe d g, draws)) /\
  (reachable g ->
   gameStatusRef g = gameStatus g /\ directionRef g = direction g).
Proof.
  split; [|split; [|split; [|split]]].
  - intros Hstat. rewrite handleSwipe_eq.
    destruct (GameStatus_eqb (gameStatusRef g) PLAYING) eqn:E; [|reflexivity].
    apply GameStatus_eqb_eq in E. contradiction.
  - intros ->. rewrite handleSwipe_eq, Direction_eqb_refl.
    now rewrite andb_false_r.
  - intros Hstat Hdir. rewrite handleSwipe_eq, Hstat.
    destruct (Direction_eqb d (opposite (directionRef g))) eqn:E.
    + apply Direction_eqb_eq in E. contradiction.
    + simpl. repeat split.
      intros first others Hsnake. unfold newHead. simpl. now rewrite Hsnake.
  - intros key draws Hkey.
    rewrite handleKeyDown_eq, (keyDirection_not_restart _ _ _ Hkey), Hkey.
    reflexivity.
  - intros Hreach. apply reachable_Invariant in Hreach.
    destruct Hreach. auto.
Qed.

Lemma C6_direction_request_witness :
  (handleSwipe LEFT foodAhead = turned LEFT foodAhead /\
   directionRef (handleSwipe LEFT foodAhead) = LEFT /\
   direction (handleSwipe LEFT foodAhead) = LEFT /\
   forall first others,
     snake foodAhead = first :: others ->
     newHead (handleSwipe LEFT foodAhead) = Some (moveHead LEFT first)) /\
  handleSwipe DOWN foodAhead = foodAhead /\
  handleSwipe LEFT crashed = crashed.
Proof.
  split; [|split].
  - apply (proj1 (proj2 (proj2 (C6_direction_request LEFT foodAhead)))).
    + reflexivity.
    + discriminate.
  - apply (proj1 (proj2 (C6_direction_request DOWN foodAhead))).
    reflexivity.
  - apply (proj1 (C6_direction_request LEFT crashed)).
    discriminate.
Defined.

(** ** Two turns between two ticks *)

Lemma reachable_foodAside : reachable foodAside.
Proof.
  apply reachable_started; [|reflexivity].
  unfold inBoard, BOARD_SIZE. simpl. lia.
Qed.

(** C10.  The reversal guard reads the direction that was requested
    last, not the one the last tick applied.  There is a session in
    which a tick moves the head up, then LEFT and DOWN are requested
    and both accepted before the next tick, and that tick moves the
    head down, the reverse of the previous move, onto the snake's
    second cell, which ends the game.  In any state whose status is
    PLAYING two accepted requests lead to the reverse of the current
    direction. *)
Theorem C10_double_turn_reverses :
  (exists g g1 g2 g3 g4 first second others,
     reachable g /\
     directionRef g = UP /\
     tick g [mkPosition 7 7] = Some (g1, []) /\
     snake g1 = first :: second :: others /\
     Some first = newHead g /\
     g2 = handleSwipe LEFT g1 /\ directionRef g2 = LEFT /\
     g3 = handleSwipe DOWN g2 /\ directionRef g3 = DOWN /\
     directionRef g3 = opposite (directionRef g) /\
     newHead g3 = Some second /\
     tick g3 [] = Some (g4, []) /\
     gameStatus g4 = GAME_OVER) /\
  (forall s,
     gameStatusRef s = PLAYING ->
     exists d1 d2,
       d1 <> directionRef s /\
       handleSwipe d1 s = turned d1 s /\
       handleSwipe d2 (handleSwipe d1 s) = turned d2 (turned d1 s) /\
       directionRef (handleSwipe d2 (handleSwipe d1 s))
         = opposite (directionRef s)).
Proof.
  split.
  - exists foodAside.
    eexists. eexists. eexists. eexists. eexists. eexists. eexists.
    split; [exact reachable_foodAside|].
    split; [reflexivity|].
    split; [vm_compute; reflexivity|].
    split; [reflexivity|].
    split; [reflexivity|].
    split; [reflexivity|].
    split; [reflexivity|].
    split; [reflexivity|].
    split; [reflexivity|].
    split; [reflexivity|].
    split; [reflexivity|].
    split; [vm_compute; reflexivity|].
    reflexivity.
  - intros s Hplay.
    destruct (directionRef s) eqn:Hdir.
    + exists LEFT, DOWN. rewrite !handleSwipe_eq; simpl; rewrite Hplay, Hdir; simpl.
      rewrite Hplay. simpl. repeat split; discriminate.
    + exists LEFT, UP. rewrite !handleSwipe_eq; simpl; rewrite Hplay, Hdir; simpl.
      rewrite Hplay. simpl. repeat split; discriminate.
    + exists UP, RIGHT. rewrite !handleSwipe_eq; simpl; rewrite Hplay, Hdir; simpl.
      rewrite Hplay. simpl. repeat split; discriminate.
    + exists UP, LEFT. rewrite !handleSwipe_eq; simpl; rewrite Hplay, Hdir; simpl.
      rewrite Hplay. simpl. repeat split; discriminate.
Qed.

(** ** A move that does not eat *)



(** C4.  The code at a move that neither collides nor eats: from the
    state right after Start Game with the food on (5,5), a tick whose
    next random cell is (7,7) moves the snake one cell up and keeps
    score, speed, status and direction, but leaves the food on (7,7):
    the food cell is not the one from before the tick. *)
Theorem C4_plain_move_relocates_food :
  gameStatus foodAside = PLAYING /\
  newHead foodAside = Some (mkPosition 10 9) /\
  inBoard (mkPosition 10 9) /\
  ~ In (mkPosition 10 9) (snake foodAside) /\
  mkPosition 10 9 <> food foodAside /\
  exists g',
    tick foodAside [mkPosition 7 7] = Some (g', []) /\
    snake g' = [mkPosition 10 9; mkPosition 10 10; mkPosition 10 11] /\
    score g' = score foodAside /\
    speed g' = speed foodAside /\
    gameStatus g' = gameStatus foodAside /\
    direction g' = direction foodAside /\
    food foodAside = mkPosition 5 5 /\
    food g' = mkPosition 7 7 /\
    food g' <> food foodAside.
Proof.
  split; [reflexivity|]. split; [reflexivity|].
  split; [unfold inBoard, BOARD_SIZE; simpl; lia|].
  split; [apply not_occupied_not_In; reflexivity|].
  split; [discriminate|].
  eexists. split; [vm_compute; reflexivity|].
  repeat split; discriminate.
Qed.

(** * Further properties of the code *)

(** ** Shape of the snake, score and speed *)

Lemma adjacent_moveHead d first : adjacent (moveHead d first) first.
Proof. unfold adjacent. destruct d; simpl; lia. Qed.

Lemma connected_tail a cells : connected (a :: cells) -> connected cells.
Proof. destruct cells; simpl; tauto. Qed.

Lemma connected_removelast cells : connected cells -> connected (removelast cells).
Proof.
  induction cells as [|a cells IH]; [trivial|].
  destruct cells as [|b cells]; [trivial|].
  intros [Hab Hrest]. specialize (IH Hrest).
  change (removelast (a :: b :: cells)) with (a :: removelast (b :: cells)).
  destruct cells as [|c cells]; [exact I|].
  change (removelast (b :: c :: cells)) with (b :: removelast (c :: cells)) in *.
  split; assumption.
Qed.

Lemma NoDup_removelast {A : Type} (l : list A) : NoDup l -> NoDup (removelast l).
Proof.
  induction l as [|a l IH]; [trivial|].
  intros Hnd. inversion Hnd as [|? ? Hnotin Hl]; subst.
  destruct l as [|b l]; [constructor|].
  change (removelast (a :: b :: l)) with (a :: removelast (b :: l)).
  constructor; [|now apply IH].
  intros Hin. apply Hnotin. now apply (removelast_incl (b :: l)).
Qed.

Lemma WellFormed_setFood f g : WellFormed g -> WellFormed (setFood f g).
Proof. intros []. split; assumption. Qed.

Lemma WellFormed_gameOver g : WellFormed g -> WellFormed (gameOver g).
Proof. intros []. split; assumption. Qed.

Lemma WellFormed_turned d g : WellFormed g -> WellFormed (turned d g).
Proof. intros []. split; assumption. Qed.

Lemma WellFormed_started f : WellFormed (started f).
Proof.
  split.
  - repeat constructor; unfold BOARD_SIZE; simpl; lia.
  - repeat constructor; simpl; intuition discriminate.
  - simpl. unfold adjacent. simpl. lia.
  - unfold eaten. simpl. lia.
  - reflexivity.
  - reflexivity.
Qed.

Lemma WellFormed_grown head g :
  newHead g = Some head ->
  hitsWall head = false ->
  isPositionOccupied (snake g) head = false ->
  WellFormed g ->
  WellFormed (grown head g).
Proof.
  intros Hhead Hwall Hself [Hboard Hnd Hconn Hlen Hscore Hspeed].
  destruct (newHead_Some _ _ Hhead) as (first & others & Hsnake & Hmove).
  assert (Heaten : eaten (grown head g) = eaten g + 1).
  { unfold eaten. cbn [snake grown setSnake List.length]. lia. }
  split.
  - constructor; [now apply hitsWall_false|exact Hboard].
  - constructor; [now apply not_occupied_not_In|exact Hnd].
  - cbn [snake grown setSnake]. rewrite Hsnake in *.
    split; [subst head; apply adjacent_moveHead|exact Hconn].
  - lia.
  - rewrite Heaten. cbn [score grown setSnake setSpeed setScore]. lia.
  - rewrite Heaten. cbn [speed grown setSnake setSpeed setScore].
    unfold MIN_SPEED, INITIAL_SPEED, SPEED_INCREMENT in *. lia.
Qed.

Lemma WellFormed_moved head g :
  newHead g = Some head ->
  hitsWall head = false ->
  isPositionOccupied (snake g) head = false ->
  WellFormed g ->
  WellFormed (moved head g).
Proof.
  intros Hhead Hwall Hself [Hboard Hnd Hconn Hlen Hscore Hspeed].
  destruct (newHead_Some _ _ Hhead) as (first & others & Hsnake & Hmove).
  assert (Heaten : eaten (moved head g) = eaten g).
  { unfold eaten. cbn [snake moved setSnake].
    rewrite removelast_cons_length. reflexivity. }
  assert (Hlong : Forall inBoard (head :: snake g)).
  { constructor; [now apply hitsWall_false|exact Hboard]. }
  assert (Hndlong : NoDup (head :: snake g)).
  { constructor; [now apply not_occupied_not_In|exact Hnd]. }
  assert (Hconnlong : connected (head :: snake g)).
  { rewrite Hsnake in *. split; [subst head; apply adjacent_moveHead|exact Hconn]. }
  split.
  - cbn [snake moved setSnake].
    apply (incl_Forall (removelast_incl _) Hlong).
  - cbn [snake moved setSnake]. now apply NoDup_removelast.
  - cbn [snake moved setSnake]. now apply connected_removelast.
  - lia.
  - rewrite Heaten. exact Hscore.
  - rewrite Heaten. exact Hspeed.
Qed.

Lemma WellFormed_newHead g : WellFormed g -> exists head, newHead g = Some head.
Proof.
  intros [_ _ _ Hlen _ _]. unfold newHead, eaten in *.
  destruct (snake g); [simpl in Hlen; lia|eauto].
Qed.

Lemma tick_not_playing g draws :
  gameStatus g <> PLAYING -> tick g draws = Some (g, draws).
Proof.
  intros Hstat. unfold tick.
  destruct (GameStatus_eqb (gameStatus g) PLAYING) eqn:E; [|reflexivity].
  apply GameStatus_eqb_eq in E. contradiction.
Qed.

Lemma WellFormed_tick g draws g' rest :
  WellFormed g ->
  tick g draws = Some (g', rest) ->
  WellFormed g'.
Proof.
  intros Hwf H.
  destruct (GameStatus_eqb (gameStatus g) PLAYING) eqn:Hplay.
  - apply GameStatus_eqb_eq in Hplay.
    destruct (WellFormed_newHead _ Hwf) as (head & Hhead).
    destruct (tick_outcome _ _ _ _ _ Hplay Hhead H)
      as [_ | f r Hwall Hself _ _ _ _ | f r Hwall Hself _ _ _ _].
    + now apply WellFormed_gameOver.
    + now apply WellFormed_setFood, WellFormed_grown.
    + now apply WellFormed_setFood, WellFormed_moved.
  - rewrite tick_not_playing in H by (intros E; rewrite E in Hplay; discriminate).
    injection H as <- _. exact Hwf.
Qed.

Lemma WellFormed_handleSwipe d g : WellFormed g -> WellFormed (handleSwipe d g).
Proof.
  intros Hwf. rewrite handleSwipe_eq.
  destruct (_ && _); [now apply WellFormed_turned|exact Hwf].
Qed.

Lemma WellFormed_initGame g draws g' rest :
  initGame g draws = Some (g', rest) -> WellFormed g'.
Proof.
  intros H. apply initGame_sound in H as (f & -> & _).
  apply WellFormed_started.
Qed.

Lemma WellFormed_dispatch ev g draws g' rest :
  WellFormed g ->
  dispatch ev g draws = Some (g', rest) ->
  WellFormed g'.
Proof.
  intros Hwf. destruct ev as [|key|dir|]; simpl.
  - now apply WellFormed_tick.
  - rewrite handleKeyDown_eq. destruct (isRestart key g).
    + apply WellFormed_initGame.
    + intros H. apply ret_Some in H as [-> _].
      destruct (keyDirection key); [now apply WellFormed_handleSwipe|exact Hwf].
  - intros H. apply ret_Some in H as [-> _]. now apply WellFormed_handleSwipe.
  - destruct (GameStatus_eqb (gameStatus g) PLAYING).
    + intros H. apply ret_Some in H as [-> _]. exact Hwf.
    + apply WellFormed_initGame.
Qed.

Lemma reachable_WellFormed g : reachable g -> WellFormed g.
Proof.
  induction 1 as [draws g rest _ Hmount | g ev draws g' rest _ IH _ Hstep].
  - unfold mount, foodEffect in Hmount.
    apply generateFood_sound in Hmount as (f & -> & _).
    apply WellFormed_setFood.
    destruct (WellFormed_started (mkPosition 5 5)). split; assumption.
  - eapply WellFormed_dispatch; eassumption.
Qed.

Lemma reachable_afterMeal : reachable afterMeal.
Proof.
  apply (reachable_step foodAhead Tick [mkPosition 1 1; mkPosition 2 2]
           afterMeal []).
  - exact reachable_foodAhead.
  - repeat constructor; unfold BOARD_SIZE; simpl; lia.
  - vm_compute. reflexivity.
Qed.

Lemma reachable_crashedMeal : reachable crashedMeal.
Proof.
  apply (reachable_step (handleSwipe DOWN (handleSwipe LEFT afterMeal))
           Tick [] crashedMeal []); [|constructor|vm_compute; reflexivity].
  apply (reachable_step (handleSwipe LEFT afterMeal) (Swipe DOWN) []
           _ []); [|constructor|reflexivity].
  apply (reachable_step afterMeal (Swipe LEFT) [] _ []);
    [exact reachable_afterMeal|constructor|reflexivity].
Qed.

(** *** Grid indices and board cells *)

Lemma In_boardIndices index :
  In index boardIndices <-> 0 <= index < BOARD_SIZE * BOARD_SIZE.
Proof.
  unfold boardIndices. rewrite in_map_iff. split.
  - intros (n & <- & Hn). apply in_seq in Hn. lia.
  - intros Hrange. exists (Z.to_nat index). split; [lia|].
    apply in_seq. lia.
Qed.

Lemma NoDup_boardIndices : NoDup boardIndices.
Proof.
  unfold boardIndices. apply NoDup_map_NoDup_ForallPairs; [|apply seq_NoDup].
  intros a b _ _ Hab. lia.
Qed.

Lemma length_boardIndices : List.length boardIndices = 400%nat.
Proof. reflexivity. Qed.

Lemma cellAt_cellIndex p : inBoard p -> cellAt (cellIndex p) = p.
Proof.
  intros [Hx Hy]. unfold cellAt, cellIndex. destruct p as [px py]; simpl in *.
  unfold BOARD_SIZE in *.
  rewrite Z.add_comm, Z.mod_add, Z.div_add, Z.mod_small, Z.div_small by lia.
  reflexivity.
Qed.

Lemma cellIndex_cellAt index : cellIndex (cellAt index) = index.
Proof.
  unfold cellAt, cellIndex, BOARD_SIZE. simpl.
  pose proof (Z.div_mod index 20). lia.
Qed.

Lemma cellIndex_range p :
  inBoard p -> 0 <= cellIndex p < BOARD_SIZE * BOARD_SIZE.
Proof. intros [Hx Hy]. unfold cellIndex, BOARD_SIZE in *. lia. Qed.

Lemma cellAt_inBoard index :
  0 <= index < BOARD_SIZE * BOARD_SIZE -> inBoard (cellAt index).
Proof.
  unfold inBoard, cellAt, BOARD_SIZE. simpl. intros Hrange.
  pose proof (Z.mod_pos_bound index 20).
  pose proof (Z.div_mod index 20).
  split; [lia|]. split; [apply Z.div_pos; lia|].
  apply Z.div_lt_upper_bound; lia.
Qed.

Lemma board_cells_bound (cells : list Position) :
  Forall inBoard cells -> NoDup cells -> (List.length cells <= 400)%nat.
Proof.
  intros Hboard Hnd.
  rewrite <- length_boardIndices, <- (length_map cellAt boardIndices).
  apply NoDup_incl_length; [exact Hnd|].
  intros c Hc. rewrite Forall_forall in Hboard. specialize (Hboard c Hc).
  apply in_map_iff. exists (cellIndex c).
  split; [now apply cellAt_cellIndex|].
  now apply In_boardIndices, cellIndex_range.
Qed.

Lemma reachable_length_bounds g :
  reachable g -> (3 <= List.length (snake g) <= 400)%nat.
Proof.
  intros Hreach. apply reachable_WellFormed in Hreach.
  destruct Hreach as [Hboard Hnd _ Hlen _ _].
  split; [|now apply board_cells_bound].
  unfold eaten in Hlen. simpl in Hlen. lia.
Qed.

(** X3.  In every reachable state the cells of the snake are inside the
    board and pairwise distinct, and the snake has at least 3 and at
    most 400 cells. *)
Theorem snake_cells_on_board_distinct g :
  reachable g ->
  Forall inBoard (snake g) /\
  NoDup (snake g) /\
  (3 <= List.length (snake g) <= 400)%nat.
Proof.
  intros Hreach. pose proof (reachable_length_bounds g Hreach) as Hlen.
  apply reachable_WellFormed in Hreach.
  destruct Hreach as [Hboard Hnd _ _ _ _].
  split; [exact Hboard|]. split; [exact Hnd|exact Hlen].
Qed.

Lemma snake_cells_on_board_distinct_witness :
  Forall inBoard (snake afterMeal) /\
  NoDup (snake afterMeal) /\
  (3 <= List.length (snake afterMeal) <= 400)%nat.
Proof.
  apply (snake_cells_on_board_distinct afterMeal). exact reachable_afterMeal.
Defined.

(** X4.  In every reachable state each cell of the snake is one step,
    horizontal or vertical, from the next one. *)
Theorem snake_connected g : reachable g -> connected (snake g).
Proof.
  intros Hreach. apply reachable_WellFormed in Hreach. now destruct Hreach.
Qed.

Lemma snake_connected_witness : connected (snake afterMeal).
Proof. apply (snake_connected afterMeal). exact reachable_afterMeal. Defined.

(** X5.  In every reachable state the score is ten times the number of
    cells the snake gained over its initial three; it lies between 0
    and 3970. *)
Theorem score_counts_growth g :
  reachable g ->
  score g = 10 * (Z.of_nat (List.length (snake g)) - 3) /\
  0 <= score g <= 3970.
Proof.
  intros Hreach.
  destruct (reachable_length_bounds g Hreach) as [Hlo Hhi].
  apply reachable_WellFormed in Hreach.
  destruct Hreach as [_ _ _ _ Hscore _].
  unfold eaten in Hscore.
  change (Z.of_nat (List.length INITIAL_SNAKE)) with 3 in Hscore. lia.
Qed.

Lemma score_counts_growth_witness :
  score afterMeal = 10 * (Z.of_nat (List.length (snake afterMeal)) - 3) /\
  0 <= score afterMeal <= 3970.
Proof. apply (score_counts_growth afterMeal). exact reachable_afterMeal. Defined.

(** X6.  In every reachable state the speed is 150 minus 5 per cell
    gained, but not below 50: it lies between 50 and 150, and it is 50
    from the twentieth gained cell on. *)
Theorem speed_follows_growth g :
  reachable g ->
  speed g = Z.max 50 (150 - 5 * (Z.of_nat (List.length (snake g)) - 3)) /\
  50 <= speed g <= 150.
Proof.
  intros Hreach.
  destruct (reachable_length_bounds g Hreach) as [Hlo Hhi].
  apply reachable_WellFormed in Hreach.
  destruct Hreach as [_ _ _ _ _ Hspeed].
  unfold eaten, MIN_SPEED, INITIAL_SPEED, SPEED_INCREMENT in Hspeed.
  change (Z.of_nat (List.length INITIAL_SNAKE)) with 3 in Hspeed. lia.
Qed.

Lemma speed_follows_growth_witness :
  speed afterMeal
    = Z.max 50 (150 - 5 * (Z.of_nat (List.length (snake afterMeal)) - 3)) /\
  50 <= speed afterMeal <= 150.
Proof. apply (speed_follows_growth afterMeal). exact reachable_afterMeal. Defined.

Lemma Math_round_div_multiple m d : 0 < d -> Math_round_div (d * m) d = m.
Proof.
  intros Hd. unfold Math_round_div. symmetry.
  apply Z.div_unique with (r := d); lia.
Qed.

(** X7.  In every reachable state the speed shown is 11 plus the number
    of cells gained, capped at 31: it reads 11 when a game starts. *)
Theorem speedLabel_counts_growth g :
  reachable g ->
  speedLabel g = 11 + Z.min 20 (Z.of_nat (List.length (snake g)) - 3).
Proof.
  intros Hreach.
  destruct (reachable_length_bounds g Hreach) as [Hlo Hhi].
  apply reachable_WellFormed in Hreach.
  destruct Hreach as [_ _ _ _ _ Hspeed].
  unfold eaten, MIN_SPEED, INITIAL_SPEED, SPEED_INCREMENT in Hspeed.
  change (Z.of_nat (List.length INITIAL_SNAKE)) with 3 in Hspeed.
  unfold speedLabel, INITIAL_SPEED, MIN_SPEED, SPEED_INCREMENT.
  set (k := Z.of_nat (List.length (snake g)) - 3) in *.
  replace (150 - speed g + 50) with (5 * (10 + Z.min 20 k)) by lia.
  rewrite Math_round_div_multiple by lia. lia.
Qed.

Lemma speedLabel_counts_growth_witness :
  speedLabel afterMeal
    = 11 + Z.min 20 (Z.of_nat (List.length (snake afterMeal)) - 3).
Proof.
  apply (speedLabel_counts_growth afterMeal). exact reachable_afterMeal.
Defined.

(** ** The grid *)

Lemma cellClass_eq g first others index :
  snake g = first :: others ->
  cellClass g index =
  Some (if Position_eqb first (cellAt index) then HeadCell
        else if isPositionOccupied others (cellAt index) then BodyCell
        else if Position_eqb (food g) (cellAt index) then FoodCell
        else EmptyCell).
Proof. intros Hsnake. unfold cellClass. rewrite Hsnake. reflexivity. Qed.

Lemma isPositionOccupied_cons first others pos :
  isPositionOccupied (first :: others) pos
  = Position_eqb first pos || isPositionOccupied others pos.
Proof. reflexivity. Qed.

Lemma drawnAsSnake_eq g index :
  snake g <> [] ->
  drawnAsSnake g index = isPositionOccupied (snake g) (cellAt index).
Proof.
  intros Hne. destruct (snake g) as [|first others] eqn:Hsnake; [congruence|].
  unfold drawnAsSnake.
  rewrite (cellClass_eq _ _ _ _ Hsnake), isPositionOccupied_cons.
  destruct (Position_eqb first (cellAt index)); [reflexivity|].
  destruct (isPositionOccupied others (cellAt index)); [reflexivity|].
  destruct (Position_eqb (food g) (cellAt index)); reflexivity.
Qed.

Lemma cellIndex_injective a b :
  inBoard a -> inBoard b -> cellIndex a = cellIndex b -> a = b.
Proof.
  intros Ha Hb Hab.
  rewrite <- (cellAt_cellIndex a Ha), <- (cellAt_cellIndex b Hb).
  now rewrite Hab.
Qed.

Lemma occupied_indices_count cells :
  Forall inBoard cells ->
  NoDup cells ->
  List.length
    (filter (fun index => isPositionOccupied cells (cellAt index)) boardIndices)
  = List.length cells.
Proof.
  intros Hboard Hnd. rewrite Forall_forall in Hboard.
  rewrite <- (length_map cellIndex cells).
  apply Permutation_length, NoDup_Permutation.
  - apply NoDup_filter, NoDup_boardIndices.
  - apply NoDup_map_NoDup_ForallPairs; [|exact Hnd].
    intros a b Ha Hb. apply cellIndex_injective; auto.
  - intros index. rewrite filter_In, In_boardIndices, isPositionOccupied_In,
      in_map_iff.
    split.
    + intros [_ Hin]. exists (cellAt index).
      split; [apply cellIndex_cellAt|exact Hin].
    + intros (c & <- & Hin). pose proof (Hboard c Hin) as Hc.
      split; [now apply cellIndex_range|].
      now rewrite cellAt_cellIndex.
Qed.

(** X8.  In every reachable state the grid draws the food: every grid
    cell gets a class, the food has its index among the 400 of the
    grid, and the cell drawn as food is that one and no other, so the
    snake never hides the food. *)
Theorem food_drawn_once g :
  reachable g ->
  (forall index, cellClass g index <> None) /\
  In (cellIndex (food g)) boardIndices /\
  (forall index,
     In index boardIndices ->
     (cellClass g index = Some FoodCell <-> index = cellIndex (food g))).
Proof.
  intros Hreach. apply reachable_Invariant in Hreach.
  destruct Hreach as [Hne Hfree Hboard _ _ _].
  destruct (snake g) as [|first others] eqn:Hsnake; [congruence|].
  rewrite isPositionOccupied_cons in Hfree.
  apply orb_false_iff in Hfree as [Hhead Hbody].
  split; [|split].
  - intros index. rewrite (cellClass_eq _ _ _ _ Hsnake). discriminate.
  - now apply In_boardIndices, cellIndex_range.
  - intros index _. rewrite (cellClass_eq _ _ _ _ Hsnake). split.
    + destruct (Position_eqb first (cellAt index)); [discriminate|].
      destruct (isPositionOccupied others (cellAt index)); [discriminate|].
      destruct (Position_eqb (food g) (cellAt index)) eqn:E; [|discriminate].
      intros _. apply Position_eqb_eq in E. rewrite E.
      symmetry. apply cellIndex_cellAt.
    + intros ->. rewrite (cellAt_cellIndex _ Hboard), Hhead, Hbody.
      now rewrite (proj2 (Position_eqb_eq _ _) eq_refl).
Qed.

Lemma food_drawn_once_witness :
  (forall index, cellClass afterMeal index <> None) /\
  In (cellIndex (food afterMeal)) boardIndices /\
  (forall index,
     In index boardIndices ->
     (cellClass afterMeal index = Some FoodCell
      <-> index = cellIndex (food afterMeal))).
Proof. apply (food_drawn_once afterMeal). exact reachable_afterMeal. Defined.

(** X9.  In every reachable state the snake has a first cell, and the
    grid cell drawn as the head is the one at the index of that cell
    and no other. *)
Theorem head_drawn_once g :
  reachable g ->
  exists first others,
    snake g = first :: others /\
    In (cellIndex first) boardIndices /\
    forall index,
      In index boardIndices ->
      (cellClass g index = Some HeadCell <-> index = cellIndex first).
Proof.
  intros Hreach. apply reachable_WellFormed in Hreach.
  destruct (WellFormed_newHead _ Hreach) as (head & Hhead).
  destruct (newHead_Some _ _ Hhead) as (first & others & Hsnake & _).
  destruct Hreach as [Hboard _ _ _ _ _]. rewrite Hsnake in Hboard.
  inversion Hboard as [|? ? Hfirst _]; subst.
  exists first, others. split; [exact Hsnake|]. split.
  - now apply In_boardIndices, cellIndex_range.
  - intros index _. rewrite (cellClass_eq _ _ _ _ Hsnake). split.
    + destruct (Position_eqb first (cellAt index)) eqn:E.
      * intros _. apply Position_eqb_eq in E. rewrite E.
        symmetry. apply cellIndex_cellAt.
      * destruct (isPositionOccupied others (cellAt index)); [discriminate|].
        destruct (Position_eqb (food g) (cellAt index)); discriminate.
    + intros ->. rewrite (cellAt_cellIndex _ Hfirst).
      now rewrite (proj2 (Position_eqb_eq _ _) eq_refl).
Qed.

Lemma head_drawn_once_witness :
  exists first others,
    snake afterMeal = first :: others /\
    In (cellIndex first) boardIndices /\
    forall index,
      In index boardIndices ->
      (cellClass afterMeal index = Some HeadCell <-> index = cellIndex first).
Proof. apply (head_drawn_once afterMeal). exact reachable_afterMeal. Defined.

(** X10.  In every reachable state the number of grid cells drawn as
    head or body of the snake is the number of cells of the snake. *)
Theorem snake_drawn_in_full g :
  reachable g ->
  List.length (filter (drawnAsSnake g) boardIndices) = List.length (snake g).
Proof.
  intros Hreach. pose proof (reachable_Invariant _ Hreach) as [Hne _ _ _ _ _].
  apply reachable_WellFormed in Hreach.
  destruct Hreach as [Hboard Hnd _ _ _ _].
  rewrite <- (occupied_indices_count _ Hboard Hnd).
  f_equal. apply filter_ext. intros index. now apply drawnAsSnake_eq.
Qed.

Lemma snake_drawn_in_full_witness :
  List.length (filter (drawnAsSnake afterMeal) boardIndices)
  = List.length (snake afterMeal).
Proof. apply (snake_drawn_in_full afterMeal). exact reachable_afterMeal. Defined.

(** ** The food generator, draw by draw *)

Lemma drawFood_Some_iff snakeBody draws c rest :
  drawFood snakeBody draws = Some (c, rest) <->
  exists skipped,
    draws = skipped ++ c :: rest /\
    Forall (fun d => isPositionOccupied snakeBody d = true) skipped /\
    isPositionOccupied snakeBody c = false.
Proof.
  split.
  - induction draws as [|d ds IH]; simpl; [discriminate|].
    destruct (isPositionOccupied snakeBody d) eqn:Hocc.
    + intros H. destruct (IH H) as (skipped & -> & Hskipped & Hfree).
      exists (d :: skipped). repeat split; auto.
    + intros H. injection H as <- <-. exists []. repeat split; auto.
  - intros (skipped & -> & Hskipped & Hfree).
    induction Hskipped as [|d skipped Hd _ IH]; simpl.
    + now rewrite Hfree.
    + now rewrite Hd.
Qed.

Lemma drawFood_None_iff snakeBody draws :
  drawFood snakeBody draws = None <->
  Forall (fun d => isPositionOccupied snakeBody d = true) draws.
Proof.
  induction draws as [|d ds IH]; simpl.
  - split; [constructor|reflexivity].
  - destruct (isPositionOccupied snakeBody d) eqn:Hocc.
    + rewrite IH. split.
      * intros H. constructor; assumption.
      * intros H. now inversion H.
    + split; [discriminate|]. intros H. inversion H. congruence.
Qed.

(** X1.  [generateFood] puts the food on the first drawn cell that is
    not on [snakeBody], having skipped only cells on it, and touches
    nothing but the food; it has no result exactly when every drawn
    cell is on [snakeBody]. *)
Theorem generateFood_takes_first_free snakeBody g draws :
  (forall g' rest,
     generateFood snakeBody g draws = Some (g', rest) <->
     exists skipped f,
       draws = skipped ++ f :: rest /\
       Forall (fun d => In d snakeBody) skipped /\
       ~ In f snakeBody /\
       g' = setFood f g) /\
  (generateFood snakeBody g draws = None <->
   Forall (fun d => In d snakeBody) draws).
Proof.
  assert (Hocc : forall l,
             Forall (fun d => isPositionOccupied snakeBody d = true) l <->
             Forall (fun d => In d snakeBody) l).
  { intros l. rewrite !Forall_forall. split; intros H d Hd.
    - now apply isPositionOccupied_In, H.
    - now apply isPositionOccupied_In, H. }
  unfold generateFood, bind, ret. split.
  - intros g' rest. split.
    + destruct (drawFood snakeBody draws) as [[c r]|] eqn:E; [|discriminate].
      intros H. injection H as <- <-.
      apply drawFood_Some_iff in E as (skipped & -> & Hskipped & Hfree).
      exists skipped, c. repeat split.
      * now apply Hocc.
      * now apply not_occupied_not_In.
    + intros (skipped & f & Hdraws & Hskipped & Hfree & ->).
      assert (E : drawFood snakeBody draws = Some (f, rest)).
      { apply drawFood_Some_iff. exists skipped. repeat split.
        - exact Hdraws.
        - now apply Hocc.
        - now apply not_occupied_not_In. }
      now rewrite E.
  - rewrite <- Hocc, <- drawFood_None_iff.
    destruct (drawFood snakeBody draws) as [[c r]|]; split; congruence.
Qed.

(** The snake that covers the whole board. *)
Lemma full_board_covers c : inBoard c -> In c (map cellAt boardIndices).
Proof.
  intros Hc. apply in_map_iff. exists (cellIndex c).
  split; [now apply cellAt_cellIndex|].
  now apply In_boardIndices, cellIndex_range.
Qed.

Lemma generateFood_no_free_cell snakeBody g draws :
  (forall c, inBoard c -> In c snakeBody) ->
  Forall inBoard draws ->
  generateFood snakeBody g draws = None.
Proof.
  intros Hfull Hdraws. unfold generateFood, bind.
  assert (E : drawFood snakeBody draws = None).
  { apply drawFood_None_iff. rewrite Forall_forall in *.
    intros d Hd. apply isPositionOccupied_In. auto. }
  now rewrite E.
Qed.

(** X2.  When the snake covers every cell of the board, [generateFood]
    has no result, however many cells of the board are drawn: the
    [do ... while] loop does not end. *)
Theorem generateFood_full_board snakeBody g draws :
  (forall c, inBoard c -> In c snakeBody) ->
  Forall inBoard draws ->
  generateFood snakeBody g draws = None.
Proof. apply generateFood_no_free_cell. Qed.

Lemma generateFood_full_board_witness :
  generateFood (map cellAt boardIndices) foodAside
    [mkPosition 0 0; mkPosition 19 19; mkPosition 7 3] = None.
Proof.
  apply (generateFood_full_board (map cellAt boardIndices) foodAside
           [mkPosition 0 0; mkPosition 19 19; mkPosition 7 3]).
  - exact full_board_covers.
  - repeat constructor; unfold BOARD_SIZE; simpl; lia.
Defined.

(** ** Status and input events *)

Lemma handleSwipe_frame d g :
  snake (handleSwipe d g) = snake g /\
  food (handleSwipe d g) = food g /\
  score (handleSwipe d g) = score g /\
  speed (handleSwipe d g) = speed g /\
  gameStatus (handleSwipe d g) = gameStatus g /\
  gameStatusRef (handleSwipe d g) = gameStatusRef g.
Proof. rewrite handleSwipe_eq. destruct (_ && _); repeat split. Qed.

Lemma handleSwipe_not_playing d g :
  gameStatusRef g <> PLAYING -> handleSwipe d g = g.
Proof.
  intros Hstat. rewrite handleSwipe_eq.
  destruct (GameStatus_eqb (gameStatusRef g) PLAYING) eqn:E; [|reflexivity].
  apply GameStatus_eqb_eq in E. contradiction.
Qed.

Lemma isRestart_true key g :
  isRestart key g = true ->
  gameStatusRef g = GAME_OVER /\ (key = " " \/ key = "Spacebar")%string.
Proof.
  unfold isRestart. intros H. apply andb_true_iff in H as [Hstat Hkey].
  apply GameStatus_eqb_eq in Hstat.
  apply orb_true_iff in Hkey as [Hkey|Hkey]; apply String.eqb_eq in Hkey; auto.
Qed.

(** X11.  Between a reachable state and the next one the status either
    stays, or goes from IDLE to PLAYING on a click on Start Game, from
    PLAYING to GAME_OVER on a tick, or from GAME_OVER to PLAYING on a
    click on Play Again or on the space key; it never returns to
    IDLE. *)
Theorem status_transitions g ev draws g' rest :
  reachable g ->
  dispatch ev g draws = Some (g', rest) ->
  Transition (gameStatus g) ev (gameStatus g') /\
  (gameStatus g' = IDLE -> gameStatus g = IDLE).
Proof.
  intros Hreach Hstep.
  assert (Htrans : Transition (gameStatus g) ev (gameStatus g')).
  { pose proof (reachable_WellFormed _ Hreach) as Hwf.
    apply reachable_Invariant in Hreach.
    destruct Hreach as [_ _ _ _ Href _].
    destruct ev as [|key|dir|]; simpl in Hstep.
    - destruct (GameStatus_eqb (gameStatus g) PLAYING) eqn:Hplay.
      + apply GameStatus_eqb_eq in Hplay.
        destruct (WellFormed_newHead _ Hwf) as (head & Hhead).
        destruct (tick_outcome _ _ _ _ _ Hplay Hhead Hstep).
        * rewrite Hplay. apply transition_crash.
        * apply transition_none.
        * apply transition_none.
      + rewrite tick_not_playing in Hstep
          by (intros E; rewrite E in Hplay; discriminate).
        injection Hstep as <- _. apply transition_none.
    - rewrite handleKeyDown_eq in Hstep.
      destruct (isRestart key g) eqn:Hkey.
      + apply isRestart_true in Hkey as [Hover Hspace].
        apply initGame_sound in Hstep as (f & -> & _).
        rewrite <- Href, Hover. now apply transition_space.
      + apply ret_Some in Hstep as [-> _].
        destruct (keyDirection key) as [d|]; [|apply transition_none].
        destruct (handleSwipe_frame d g) as (_ & _ & _ & _ & -> & _).
        apply transition_none.
    - apply ret_Some in Hstep as [-> _].
      destruct (handleSwipe_frame dir g) as (_ & _ & _ & _ & -> & _).
      apply transition_none.
    - destruct (gameStatus g) eqn:Hstat; simpl in Hstep.
      + apply initGame_sound in Hstep as (f & -> & _). apply transition_start.
      + apply ret_Some in Hstep as [-> _]. rewrite Hstat. apply transition_none.
      + apply initGame_sound in Hstep as (f & -> & _). apply transition_again. }
  split; [exact Htrans|].
  inversion Htrans; congruence.
Qed.

Lemma status_transitions_witness :
  Transition (gameStatus crashedMeal) (KeyDown " ") (gameStatus (started (mkPosition 6 6))) /\
  (gameStatus (started (mkPosition 6 6)) = IDLE -> gameStatus crashedMeal = IDLE).
Proof.
  apply (status_transitions crashedMeal (KeyDown " ")
           [mkPosition 4 4; mkPosition 6 6] (started (mkPosition 6 6)) []).
  - exact reachable_crashedMeal.
  - vm_compute. reflexivity.
Defined.

(** X12.  While the status of a reachable state is IDLE or GAME_OVER,
    every event that is not a reset (a tick, a swipe, any key other
    than space when the game is over, any key at all when it is idle)
    leaves the whole state as it is and draws no random cell. *)
Theorem not_playing_ignores_events g ev draws :
  reachable g ->
  gameStatus g <> PLAYING ->
  isReset ev g = false ->
  dispatch ev g draws = Some (g, draws).
Proof.
  intros Hreach Hstat Hev. apply reachable_Invariant in Hreach.
  destruct Hreach as [_ _ _ _ Href _].
  assert (Hswipe : forall d, handleSwipe d g = g).
  { intros d. apply handleSwipe_not_playing. now rewrite Href. }
  destruct ev as [|key|dir|]; simpl in *.
  - now apply tick_not_playing.
  - rewrite handleKeyDown_eq, Hev.
    destruct (keyDirection key); [rewrite Hswipe|]; reflexivity.
  - now rewrite Hswipe.
  - destruct (GameStatus_eqb (gameStatus g) PLAYING) eqn:E; [|discriminate].
    apply GameStatus_eqb_eq in E. contradiction.
Qed.

Lemma not_playing_ignores_events_witness :
  dispatch (KeyDown "ArrowLeft") crashedMeal [mkPosition 1 1]
  = Some (crashedMeal, [mkPosition 1 1]).
Proof.
  apply (not_playing_ignores_events crashedMeal (KeyDown "ArrowLeft")
           [mkPosition 1 1]).
  - exact reachable_crashedMeal.
  - discriminate.
  - reflexivity.
Defined.

(** X13.  An input event that is not a reset (a key, a swipe, a click
    while playing) changes neither snake, food, score, speed nor
    status, in any state, and draws no random cell. *)
Theorem input_changes_direction_only g ev draws :
  ev <> Tick ->
  isReset ev g = false ->
  exists g',
    dispatch ev g draws = Some (g', draws) /\
    snake g' = snake g /\
    food g' = food g /\
    score g' = score g /\
    speed g' = speed g /\
    gameStatus g' = gameStatus g /\
    gameStatusRef g' = gameStatusRef g.
Proof.
  intros Hev Hreset. destruct ev as [|key|dir|]; simpl in *.
  - congruence.
  - rewrite handleKeyDown_eq, Hreset.
    destruct (keyDirection key) as [d|].
    + exists (handleSwipe d g). split; [reflexivity|apply handleSwipe_frame].
    + exists g. repeat split.
  - exists (handleSwipe dir g). split; [reflexivity|apply handleSwipe_frame].
  - destruct (GameStatus_eqb (gameStatus g) PLAYING); [|discriminate].
    exists g. repeat split.
Qed.

Lemma input_changes_direction_only_witness :
  exists g',
    dispatch (KeyDown "d") afterMeal [mkPosition 1 1]
      = Some (g', [mkPosition 1 1]) /\
    snake g' = snake afterMeal /\
    food g' = food afterMeal /\
    score g' = score afterMeal /\
    speed g' = speed afterMeal /\
    gameStatus g' = gameStatus afterMeal /\
    gameStatusRef g' = gameStatusRef afterMeal.
Proof.
  apply (input_changes_direction_only afterMeal (KeyDown "d") [mkPosition 1 1]).
  - discriminate.
  - reflexivity.
Defined.

(** X14.  Asking for the same direction twice is the same as asking
    once; of two requests that are both accepted the second decides,
    as if the first had not been made. *)
Theorem direction_requests_compose d e g :
  handleSwipe d (handleSwipe d g) = handleSwipe d g /\
  (gameStatusRef g = PLAYING ->
   d <> opposite (directionRef g) ->
   e <> opposite d ->
   handleSwipe e (handleSwipe d g) = turned e g).
Proof.
  split.
  - rewrite !handleSwipe_eq.
    destruct (GameStatus_eqb (gameStatusRef g) PLAYING) eqn:Hstat; simpl;
      [|rewrite Hstat; reflexivity].
    destruct (Direction_eqb d (opposite (directionRef g))) eqn:Hdir; simpl.
    + now rewrite Hstat, Hdir.
    + rewrite Hstat. destruct d; reflexivity.
  - intros Hstat Hd He. rewrite !handleSwipe_eq. simpl. rewrite Hstat. simpl.
    destruct (Direction_eqb d (opposite (directionRef g))) eqn:Hdir.
    { apply Direction_eqb_eq in Hdir. contradiction. }
    simpl. rewrite Hstat. simpl.
    destruct (Direction_eqb e (opposite d)) eqn:Hdir'.
    { apply Direction_eqb_eq in Hdir'. contradiction. }
    reflexivity.
Qed.

Lemma direction_requests_compose_witness :
  handleSwipe DOWN (handleSwipe LEFT afterMeal) = turned DOWN afterMeal.
Proof.
  apply (proj2 (direction_requests_compose LEFT DOWN afterMeal) eq_refl);
    discriminate.
Defined.

(** ** A game left alone *)








(** ** What a tick leaves alone *)

(** X16.  A tick in a reachable state never changes the direction,
    never lowers the score and never raises the speed value. *)
Theorem tick_keeps_direction_and_progress g draws g' rest :
  reachable g ->
  tick g draws = Some (g', rest) ->
  direction g' = direction g /\
  directionRef g' = directionRef g /\
  score g <= score g' /\
  speed g' <= speed g.
Proof.
  intros Hreach Htick. apply reachable_WellFormed in Hreach.
  destruct (GameStatus_eqb (gameStatus g) PLAYING) eqn:Hplay.
  - apply GameStatus_eqb_eq in Hplay.
    destruct (WellFormed_newHead _ Hreach) as (head & Hhead).
    destruct Hreach as [_ _ _ Hlen _ Hspeed].
    destruct (tick_outcome _ _ _ _ _ Hplay Hhead Htick); repeat split;
      cbn [score speed setFood grown moved gameOver setSnake setSpeed setScore
           setGameStatus setGameStatusRef];
      unfold MIN_SPEED, INITIAL_SPEED, SPEED_INCREMENT in *; lia.
  - rewrite tick_not_playing in Htick
      by (intros E; rewrite E in Hplay; discriminate).
    injection Htick as <- _. repeat split; lia.
Qed.

Lemma tick_keeps_direction_and_progress_witness :
  direction afterMeal = direction foodAhead /\
  directionRef afterMeal = directionRef foodAhead /\
  score foodAhead <= score afterMeal /\
  speed afterMeal <= speed foodAhead.
Proof.
  apply (tick_keeps_direction_and_progress foodAhead
           [mkPosition 1 1; mkPosition 2 2] afterMeal []).
  - exact reachable_foodAhead.
  - vm_compute. reflexivity.
Defined.

(** ** A step onto a free cell *)



(** ** Eating the last free cell *)

Lemma NoDup_board_cells : NoDup (map cellAt boardIndices).
Proof.
  apply NoDup_map_NoDup_ForallPairs; [|apply NoDup_boardIndices].
  intros a b _ _ Hab.
  rewrite <- (cellIndex_cellAt a), <- (cellIndex_cellAt b). now rewrite Hab.
Qed.

Lemma board_cells_inBoard : Forall inBoard (map cellAt boardIndices).
Proof.
  apply Forall_forall. intros c Hc.
  apply in_map_iff in Hc as (index & <- & Hindex).
  now apply cellAt_inBoard, In_boardIndices.
Qed.

Lemma full_snake_covers cells :
  Forall inBoard cells ->
  NoDup cells ->
  List.length cells = 400%nat ->
  forall c, inBoard c -> In c cells.
Proof.
  intros Hboard Hnd Hlen c Hc.
  apply (NoDup_length_incl Hnd (l' := map cellAt boardIndices)).
  - rewrite length_map, length_boardIndices. lia.
  - intros d Hd. rewrite Forall_forall in Hboard.
    now apply full_board_covers, Hboard.
  - now apply full_board_covers.
Qed.

Lemma bind_None {A B : Type} (m : Rand A) (k : A -> Rand B) draws :
  m draws = None -> bind m k draws = None.
Proof. intros H. unfold bind. now rewrite H. Qed.

(** X18.  When the snake has 399 distinct cells on the board and its
    head moves onto the food on the last free cell, the tick has no
    result, whatever cells of the board are drawn: the relocation of
    the food finds no cell off the snake and its loop does not end. *)
Theorem eating_last_cell_never_returns g draws head :
  gameStatus g = PLAYING ->
  Forall inBoard (snake g) ->
  NoDup (snake g) ->
  List.length (snake g) = 399%nat ->
  newHead g = Some head ->
  inBoard head ->
  ~ In head (snake g) ->
  head = food g ->
  Forall inBoard draws ->
  tick g draws = None.
Proof.
  intros Hplay Hboard Hnd Hlen Hhead Hin Hoff Heat Hdraws.
  assert (Hfull : forall c, inBoard c -> In c (head :: snake g)).
  { apply full_snake_covers.
    - now constructor.
    - now constructor.
    - simpl. now rewrite Hlen. }
  unfold tick. rewrite Hplay, (moveSnake_eq _ _ Hhead). simpl negb. cbv iota.
  rewrite (proj2 (hitsWall_false head) Hin).
  rewrite (proj2 (not_occupied_not_In _ _) Hoff).
  rewrite (proj2 (Position_eqb_eq _ _) Heat).
  simpl orb. cbv iota.
  apply bind_None, bind_None.
  now apply generateFood_no_free_cell.
Qed.

Lemma eating_last_cell_never_returns_witness :
  tick oneCellLeft [mkPosition 0 0; mkPosition 5 5; mkPosition 19 19] = None.
Proof.
  apply (eating_last_cell_never_returns oneCellLeft
           [mkPosition 0 0; mkPosition 5 5; mkPosition 19 19] (mkPosition 0 0)).
  - reflexivity.
  - pose proof board_cells_inBoard as H. inversion H. assumption.
  - pose proof NoDup_board_cells as H. inversion H. assumption.
  - vm_compute. reflexivity.
  - vm_compute. reflexivity.
  - unfold inBoard, BOARD_SIZE. simpl. lia.
  - apply not_occupied_not_In. vm_compute. reflexivity.
  - reflexivity.
  - repeat constructor; unfold BOARD_SIZE; simpl; lia.
Defined.
